(** * Scripts/Package.py: the RetroFE packaging script, verified

    The script assembles [Artifacts/<os>/RetroFE] from the common and the
    OS-specific asset trees and the compiled executable.  It is a sequence of
    filesystem effects, so the embedding is a state-and-exception monad over a
    model of the filesystem: a finite map from absolute paths to nodes.

    What the Python library and the operating system do ([os.makedirs],
    [shutil.copyfile], [shutil.rmtree], [argparse]) is modelled at the start;
    the repository's own code ([copytree], [mkdir_p] and the top-level script)
    follows, statement by statement. *)

From stdpp Require Import base option list strings gmap fin_maps.

(** ** Filesystem model *)

(** A path is the list of its components below the root; [[]] is the root. *)
Abbreviation path := (list string).

(** Regular files carry their bytes; directories carry whether the process may
    create or remove entries in them (the only permission that is modelled). *)
Inductive node :=
  | File (data : string)
  | Dir (writable : bool).

Abbreviation FS := (gmap path node).

Inductive errno := EEXIST | ENOENT | ENOTDIR | EISDIR | EACCES.

(** The exceptions that can leave the script.  [FileExistsError],
    [FileNotFoundError], [NotADirectoryError], [IsADirectoryError] and
    [PermissionError] are [OSError] with the matching [errno]. *)
Inductive exn :=
  | OSError (e : errno)
  | SameFileError
  | RecursionError
  | TypeError.

#[global] Instance node_eq_dec : EqDecision node.
Proof. solve_decision. Defined.
#[global] Instance errno_eq_dec : EqDecision errno.
Proof. solve_decision. Defined.
#[global] Instance exn_eq_dec : EqDecision exn.
Proof. solve_decision. Defined.

(** The state of a run: the filesystem, the lines written to standard output,
    and (ghost state) the filesystem as it was after every primitive
    operation that changed it, oldest first. *)
Record world := World {
  fs : FS;
  stdout : list string;
  hist : list FS;
}.

(** A statement either completes in a new world or raises in the world the
    exception was raised in. *)
Inductive outcome (A : Type) :=
  | Ok (a : A) (w : world)
  | Raise (e : exn) (w : world).
Arguments Ok {A} a w.
Arguments Raise {A} e w.

Definition M (A : Type) : Type := world → outcome A.

#[global] Instance M_ret : MRet M := λ A a w, Ok a w.
#[global] Instance M_bind : MBind M := λ A B k m w,
  match m w with
  | Ok a w' => k a w'
  | Raise e w' => Raise e w'
  end.

Definition raise {A} (e : exn) : M A := λ w, Raise e w.

(** [try: m  except OSError as x: if x.errno != e: raise] *)
Definition except_errno (e : errno) (m : M unit) : M unit :=
  λ w, match m w with
       | Raise (OSError e') w' => if decide (e' = e) then Ok tt w' else Raise (OSError e') w'
       | r => r
       end.

(** [for x in xs: body(x)] *)
Fixpoint for_each {A} (xs : list A) (body : A → M unit) : M unit :=
  match xs with
  | [] => mret tt
  | x :: xs' => body x ;; for_each xs' body
  end.

Definition when (b : bool) (m : M unit) : M unit := if b then m else mret tt.

(** Replace the filesystem, recording the new state. *)
Definition commit (m : FS) : M unit :=
  λ w, Ok tt (World m (stdout w) (hist w ++ [m])).

Definition print (line : string) : M unit :=
  λ w, Ok tt (World (fs w) (stdout w ++ [line]) (hist w)).

(** [os.sep.join] of the components, as the script's paths are printed. *)
Definition render (p : path) : string :=
  foldr (λ c acc, "/" +:+ c +:+ acc) "" p.

(** [os.path.dirname] *)
Definition dirname (p : path) : path := removelast p.

(** [os.path.basename] *)
Definition basename (p : path) : string := List.last p "".

Definition is_file (o : option node) : bool :=
  match o with Some (File _) => true | _ => false end.
Definition is_dir (o : option node) : bool :=
  match o with Some (Dir _) => true | _ => false end.

(** All proper prefixes of a path, the root first. *)
Definition ancestors (p : path) : list path :=
  (λ n, take n p) <$> seq 0 (length p).

(** [os.stat]: the node at a path, or the reason there is none: a regular file
    on the way gives [ENOTDIR], a missing entry [ENOENT]. *)
Definition stat (m : FS) (p : path) : errno + node :=
  match m !! p with
  | Some n => inr n
  | None => if existsb (λ q, is_file (m !! q)) (ancestors p)
            then inl ENOTDIR else inl ENOENT
  end.

(** [os.path.exists] and [os.path.isdir] never raise. *)
Definition os_path_exists (p : path) : M bool :=
  λ w, Ok (bool_decide (is_Some (fs w !! p))) w.
Definition os_path_isdir (p : path) : M bool :=
  λ w, Ok (is_dir (fs w !! p)) w.

(** The check every creation of a new entry [p] makes on its parent. *)
Definition may_create (m : FS) (p : path) : option errno :=
  match stat m (dirname p) with
  | inl e => Some e
  | inr (File _) => Some ENOTDIR
  | inr (Dir false) => Some EACCES
  | inr (Dir true) => None
  end.

(** [os.mkdir]: one directory, whose parent must be a writable directory. *)
Definition os_mkdir (p : path) : M unit :=
  λ w, match fs w !! p with
       | Some _ => Raise (OSError EEXIST) w
       | None =>
         match may_create (fs w) p with
         | Some e => Raise (OSError e) w
         | None => commit (<[p := Dir true]> (fs w)) w
         end
       end.

(** [os.makedirs(name)] (with [exist_ok=False]), by recursion on the path
    read from its last component:
<<
    head, tail = path.split(name)
    if head and tail and not path.exists(head):
        try: makedirs(head)
        except FileExistsError: pass
    mkdir(name)
>> *)
Fixpoint makedirs_rev (rp : path) : M unit :=
  match rp with
  | [] => os_mkdir []
  | tail :: rhead =>
    (e ← os_path_exists (rev rhead);
     when (negb e) (except_errno EEXIST (makedirs_rev rhead))) ;;
    os_mkdir (rev (tail :: rhead))
  end.
Definition os_makedirs (p : path) : M unit := makedirs_rev (rev p).

(** [relative_to p q] is [Some r] exactly when [q] is [p ++ r]. *)
Fixpoint relative_to (p q : path) : option path :=
  match p, q with
  | [], _ => Some q
  | c :: p', c' :: q' => if decide (c = c') then relative_to p' q' else None
  | _ :: _, [] => None
  end.

(** [under p q]: [q] is [p] or lies below it. *)
Definition under (p q : path) : bool := bool_decide (is_Some (relative_to p q)).

(** The names of the entries of directory [p], in the order of the map (which
    [os_listdir] below does not promise to keep). *)
Definition children (m : FS) (p : path) : list string :=
  omap (λ kv, match relative_to p kv.1 with
              | Some [name] => Some name
              | _ => None
              end) (map_to_list m).

(** [shutil.copyfile(src, dst)]: refuses to copy a file onto itself, opens
    [src] for reading, then [dst] for writing (creating or truncating it). *)
Definition shutil_copyfile (src dst : path) : M unit :=
  λ w, if bool_decide (src = dst) && bool_decide (is_Some (fs w !! src))
       then Raise SameFileError w
       else match stat (fs w) src with
            | inl e => Raise (OSError e) w
            | inr (Dir _) => Raise (OSError EISDIR) w
            | inr (File data) =>
              match fs w !! dst with
              | Some (Dir _) => Raise (OSError EISDIR) w
              | Some (File _) => commit (<[dst := File data]> (fs w)) w
              | None =>
                match may_create (fs w) dst with
                | Some e => Raise (OSError e) w
                | None => commit (<[dst := File data]> (fs w)) w
                end
              end
            end.

(** [shutil.copy(src, dst)]: into [dst] when that is a directory. *)
Definition shutil_copy (src dst : path) : M unit :=
  d ← os_path_isdir dst;
  if d : bool then shutil_copyfile src (dst ++ [basename src])
  else shutil_copyfile src dst.

(** An entry can be unlinked when its parent is a writable directory. *)
Definition removable (m : FS) (q : path) : bool :=
  match q with
  | [] => false
  | _ => match m !! dirname q with Some (Dir true) => true | _ => false end
  end.

(** [shutil.rmtree(p)]: [p] and everything below it is removed.  The removal
    is one step of the model: when some entry cannot be unlinked the call
    raises and the part already removed by then is not represented. *)
Definition shutil_rmtree (p : path) : M unit :=
  λ w, match stat (fs w) p with
       | inl e => Raise (OSError e) w
       | inr (File _) => Raise (OSError ENOTDIR) w
       | inr (Dir _) =>
         if forallb (λ kv, negb (under p kv.1) || removable (fs w) kv.1)
                    (map_to_list (fs w))
         then commit (filter (λ kv, under p kv.1 = false) (fs w)) w
         else Raise (OSError EACCES) w
       end.

(** The entries of the tree at [src], re-rooted at [dst]. *)
Definition graft (m : FS) (src dst : path) : FS :=
  list_to_map (omap (λ kv, (λ rel, (dst ++ rel, kv.2)) <$> relative_to src kv.1)
                    (map_to_list m)).

(** [shutil.copytree(src, dst, symlinks=True, ignore_dangling_symlinks=True)]:
    [src] is scanned, [dst] is created (it must not exist) and receives a copy
    of the tree, with the permissions of [src] (there are no symbolic links
    in the model). *)
Definition shutil_copytree (src dst : path) : M unit :=
  λ w, match stat (fs w) src with
       | inl e => Raise (OSError e) w
       | inr (File _) => Raise (OSError ENOTDIR) w
       | inr (Dir _) =>
         match os_makedirs dst w with
         | Ok _ w' => commit (graft (fs w) src dst ∪ fs w') w'
         | r => r
         end
       end.

(** ** Command line *)

(** What [parser.parse_args()] returns: the three destinations that the
    [add_argument] calls declare.  [argparse] sets every destination, to its
    default when the option is not given. *)
Record Namespace := Args {
  args_os : string;
  args_build : string;
  args_clean : bool;
}.

(** [hasattr(args, name)] *)
Definition hasattr (args : Namespace) (name : string) : bool :=
  bool_decide (name ∈ ["os"; "build"; "clean"]).

(** [choices=['windows','linux','mac']] of [--os]; [--build] declares none. *)
Definition os_choices : list string := ["windows"; "linux"; "mac"].

(** A command-line word that starts with [-] (and is not [-] alone) is read
    as an option, never as the value of the option before it. *)
Definition looks_like_option (s : string) : bool :=
  String.prefix "-" s && negb (String.eqb s "-").

(** [--name=value] *)
Definition explicit_arg (name s : string) : option string :=
  if String.prefix (name +:+ "=") s
  then Some (String.substring (String.length name + 1)
                              (String.length s - (String.length name + 1)) s)
  else None.

(** The state of the parse: [os] (no default), [build] (default ['full']) and
    [clean] ([store_true], default [False]).  [None] is a usage error.
    Abbreviated option names are not modelled. *)
Fixpoint parse_optionals (argv : list string)
    (os : option string) (build : string) (clean : bool)
    : option (option string * string * bool) :=
  match argv with
  | [] => Some (os, build, clean)
  | a :: rest =>
    if String.eqb a "--clean" then parse_optionals rest os build true
    else match explicit_arg "--os" a, explicit_arg "--build" a with
         | Some v, _ =>
           if bool_decide (v ∈ os_choices)
           then parse_optionals rest (Some v) build clean else None
         | None, Some v => parse_optionals rest os v clean
         | None, None =>
           match rest with
           | v :: rest' =>
             if looks_like_option v then None
             else if String.eqb a "--os" then
               if bool_decide (v ∈ os_choices)
               then parse_optionals rest' (Some v) build clean else None
             else if String.eqb a "--build" then
               parse_optionals rest' os v clean
             else None
           | [] => None
           end
         end
  end.

(** [parser.parse_args()]: [--os] is [required=True]. *)
Definition parse_args (argv : list string) : option Namespace :=
  match parse_optionals argv None "full" false with
  | Some (Some os, build, clean) => Some (Args os build clean)
  | _ => None
  end.

(** Lines 80-86; ['medium_artwork/logo'] is two components. *)
Definition dirs_to_create : list path :=
  [ ["roms"];
    ["medium_artwork"];
    ["medium_artwork"; "logo"];
    ["medium_artwork"; "video"];
    ["system_artwork"] ].

(** ** Vocabulary of the statements *)

(** The world a statement leaves, however it ends. *)
Definition final {A} (r : outcome A) : world :=
  match r with Ok _ w | Raise _ w => w end.

(** Whether a statement completed. *)
Definition is_ok {A} (r : outcome A) : bool :=
  match r with Ok _ _ => true | Raise _ _ => false end.

(** [m] keeps [I], whether it completes or raises. *)
Definition preserves {A} (I : world → Prop) (m : M A) : Prop :=
  ∀ w, I w → I (final (m w)).

(** A filesystem is a tree: the root is a directory and whatever exists lies
    in a directory. *)
Definition wf (m : FS) : Prop :=
  is_dir (m !! []) ∧ ∀ p name, is_Some (m !! (p ++ [name])) → is_dir (m !! p).

(** ... now and at every recorded point after the first [n]. *)
Definition wf_world (n : nat) (w : world) : Prop :=
  wf (fs w) ∧ Forall wf (drop n (hist w)).

(** Neither path is the other or lies below it. *)
Definition apart (p q : path) : Prop := ¬ p `prefix_of` q ∧ ¬ q `prefix_of` p.

(** [q] is on the way to [p], is [p], or lies below [p]. *)
Definition related (p q : path) : Prop := q `prefix_of` p ∨ p `prefix_of` q.

(** The filesystems of [w] and [w'] agree wherever [P] does not hold. *)
Definition same_outside (P : path → Prop) (w w' : world) : Prop :=
  ∀ q, ¬ P q → fs w' !! q = fs w !! q.

(** From [w] to [w'] nothing was removed or replaced, and all that was added
    are writable directories at paths where [P] holds. *)
Definition adds_dirs (P : path → Prop) (w w' : world) : Prop :=
  ∀ q, fs w' !! q = fs w !! q ∨
       (P q ∧ fs w !! q = None ∧ fs w' !! q = Some (Dir true)).

(** [m] takes every world to an [R]-related one, whether it completes or
    raises. *)
Definition steps {A} (R : relation world) (m : M A) : Prop :=
  ∀ w, R w (final (m w)).

Definition same_stdout : relation world := λ w w', stdout w' = stdout w.

(** The record of [w'] is that of [w] followed by the states the filesystem
    went through since, the last of them being the state in [w']. *)
Definition records : relation world :=
  λ w w', ∃ new, hist w' = hist w ++ new ∧ fs w' = default (fs w) (last new).

(** The paths the scaffolding may create: the five subdirectories of the
    collections whose name does not start with [_], and what leads to them. *)
Definition scaffold_target (out : path) (q : path) : Prop :=
  ∃ c s, String.prefix "_" c = false ∧ s ∈ dirs_to_create ∧
         q `prefix_of` (out ++ ["collections"; c]) ++ s.

(** What is a directory in [w] is the same directory in [w']. *)
Definition keeps_dirs : relation world :=
  λ w w', ∀ q b, fs w !! q = Some (Dir b) → fs w' !! q = Some (Dir b).

(** A decision procedure for [wf]. *)
Definition wf_check (m : FS) : bool :=
  is_dir (m !! []) &&
  forallb (λ kv, match kv.1 with
                 | [] => true
                 | _ => is_dir (m !! dirname kv.1)
                 end) (map_to_list m).

(** [w] with one more line on standard output. *)
Definition printed (line : string) (w : world) : world :=
  World (fs w) (stdout w ++ [line]) (hist w).

(** ** Example filesystems *)

(** A checkout of the repository at [/repo], built for linux only. *)
Definition checkout : FS :=
  list_to_map
    [ ([], Dir true);
      (["repo"], Dir true);
      (["repo"; "Scripts"], Dir true);
      (["repo"; "Scripts"; "Package.py"], File "import argparse");
      (["repo"; "Package"], Dir true);
      (["repo"; "Package"; "Environment"], Dir true);
      (["repo"; "Package"; "Environment"; "Common"], Dir true);
      (["repo"; "Package"; "Environment"; "Common"; "controls.conf"],
       File "select = Return");
      (["repo"; "Package"; "Environment"; "Common"; "collections"], Dir true);
      (["repo"; "Package"; "Environment"; "Common"; "collections"; "mario"],
       Dir true);
      (["repo"; "Package"; "Environment"; "Common"; "collections"; "mario";
        "settings.conf"], File "list.extensions = nes");
      (["repo"; "Package"; "Environment"; "Common"; "collections"; "_hidden"],
       Dir true);
      (["repo"; "Package"; "Environment"; "Linux"], Dir true);
      (["repo"; "Package"; "Environment"; "Linux"; "settings.conf"],
       File "fullscreen = yes");
      (["repo"; "RetroFE"], Dir true);
      (["repo"; "RetroFE"; "Build"], Dir true);
      (["repo"; "RetroFE"; "Build"; "retrofe"], File "ELF") ].

(** The same checkout with the output of an earlier linux run. *)
Definition checkout_with_output : FS :=
  list_to_map
    [ (["repo"; "Artifacts"], Dir true);
      (["repo"; "Artifacts"; "linux"], Dir true);
      (["repo"; "Artifacts"; "linux"; "RetroFE"], Dir true);
      (["repo"; "Artifacts"; "linux"; "RetroFE"; "stale.txt"], File "old") ]
  ∪ checkout.

(** The checkout with a regular file named [roms] in a collection. *)
Definition checkout_roms_file : FS :=
  <[ ["repo"; "Package"; "Environment"; "Common"; "collections"; "mario"; "roms"]
     := File "not a directory" ]> checkout.

(** The checkout with a directory the process may not write to. *)
Definition checkout_locked : FS :=
  <[ ["repo"; "locked"] := Dir false ]> checkout.

(** A tree [/t/b] that has a subdirectory [b] of its own. *)
Definition nested : FS :=
  list_to_map
    [ ([], Dir true);
      (["t"], Dir true);
      (["t"; "b"], Dir true);
      (["t"; "b"; "x"], File "outer x");
      (["t"; "b"; "1"], File "outer 1");
      (["t"; "b"; "b"], Dir true);
      (["t"; "b"; "b"; "x"], File "inner x");
      (["t"; "b"; "b"; "1"], File "inner 1") ].

(** The checkout without a [collections] directory among the assets. *)
Definition checkout_no_collections : FS :=
  list_to_map
    [ ([], Dir true);
      (["repo"], Dir true);
      (["repo"; "Package"], Dir true);
      (["repo"; "Package"; "Environment"], Dir true);
      (["repo"; "Package"; "Environment"; "Common"], Dir true);
      (["repo"; "Package"; "Environment"; "Common"; "controls.conf"],
       File "select = Return");
      (["repo"; "Package"; "Environment"; "Linux"], Dir true);
      (["repo"; "Package"; "Environment"; "Linux"; "settings.conf"],
       File "fullscreen = yes");
      (["repo"; "RetroFE"], Dir true);
      (["repo"; "RetroFE"; "Build"], Dir true);
      (["repo"; "RetroFE"; "Build"; "retrofe"], File "ELF") ].

(** The checkout after Release builds for windows and mac, with the bundle
    of an earlier mac run in the output. *)
Definition checkout_release : FS :=
  list_to_map
    [ (["repo"; "RetroFE"; "Build"; "Release"], Dir true);
      (["repo"; "RetroFE"; "Build"; "Release"; "retrofe.exe"], File "MZ");
      (["repo"; "RetroFE"; "Build"; "Release"; "RetroFE.app"], Dir true);
      (["repo"; "RetroFE"; "Build"; "Release"; "RetroFE.app"; "Contents"],
       Dir true);
      (["repo"; "RetroFE"; "Build"; "Release"; "RetroFE.app"; "Contents";
        "Info.plist"], File "plist");
      (["repo"; "Artifacts"], Dir true);
      (["repo"; "Artifacts"; "mac"], Dir true);
      (["repo"; "Artifacts"; "mac"; "RetroFE"], Dir true);
      (["repo"; "Artifacts"; "mac"; "RetroFE"; "RetroFE.app"], Dir true);
      (["repo"; "Artifacts"; "mac"; "RetroFE"; "RetroFE.app"; "stale.txt"],
       File "old") ]
  ∪ checkout.

(** The checkout after a mac build that made the bare executable only. *)
Definition checkout_release_bare : FS :=
  list_to_map
    [ (["repo"; "RetroFE"; "Build"; "Release"], Dir true);
      (["repo"; "RetroFE"; "Build"; "Release"; "retrofe"], File "Mach-O");
      (["repo"; "Artifacts"], Dir true);
      (["repo"; "Artifacts"; "mac"], Dir true);
      (["repo"; "Artifacts"; "mac"; "RetroFE"], Dir true) ]
  ∪ checkout.

(** The checkout with layouts among the common and the linux assets, and the
    output of an earlier linux run. *)
Definition checkout_layouts : FS :=
  list_to_map
    [ (["repo"; "Package"; "Environment"; "Common"; "layouts"], Dir true);
      (["repo"; "Package"; "Environment"; "Common"; "layouts"; "layout.xml"],
       File "common layout");
      (["repo"; "Package"; "Environment"; "Common"; "layouts"; "splash.xml"],
       File "common splash");
      (["repo"; "Package"; "Environment"; "Linux"; "layouts"], Dir true);
      (["repo"; "Package"; "Environment"; "Linux"; "layouts"; "layout.xml"],
       File "linux layout") ]
  ∪ checkout_with_output.

(** The checkout with a regular file where the linux output directory goes. *)
Definition checkout_output_file : FS :=
  list_to_map
    [ (["repo"; "Artifacts"], Dir true);
      (["repo"; "Artifacts"; "linux"], Dir true);
      (["repo"; "Artifacts"; "linux"; "RetroFE"], File "not a directory") ]
  ∪ checkout.

(** A run starts with nothing printed and nothing recorded. *)
Definition start (m : FS) : world := World m [] [].

(** The listing order that is the order of the map. *)
Definition as_stored : path → list string → list string := λ _ names, names.

(** ** The script *)

(** How a run ends: [0] after the last statement, [1] on an exception nobody
    caught (with a traceback), [2] on a usage error. *)
Definition exit_status {A} (r : outcome A) : nat :=
  match r with Ok _ _ => 0 | Raise _ _ => 1 end.

Section Package.

(** [os.listdir] returns the entries in arbitrary order: the order is a
    parameter, any rearrangement of the entries. *)
Variable listdir_order : path → list string → list string.
Hypothesis listdir_order_perm : ∀ p l, listdir_order p l ≡ₚ l.

(** The interpreter's limit on nested calls, [sys.getrecursionlimit()]. *)
Variable recursion_limit : nat.

(** [os.path.dirname(os.path.dirname(os.path.realpath(__file__)))] *)
Variable base_path : path.

(** [os.listdir(p)] *)
Definition os_listdir (p : path) : M (list string) :=
  λ w, match stat (fs w) p with
       | inl e => Raise (OSError e) w
       | inr (File _) => Raise (OSError ENOTDIR) w
       | inr (Dir _) => Ok (listdir_order p (children (fs w) p)) w
       end.

(** Lines 19-26. *)
Definition mkdir_p (path : path) : M unit :=
  print ("CREATE: " +:+ render path) ;;
  except_errno EEXIST (os_makedirs path).

(** Lines 8-17.  [depth] is the number of nested calls still allowed; the
    interpreter raises [RecursionError] beyond it. *)
Fixpoint copytree (depth : nat) (src dst : path) : M unit :=
  match depth with
  | 0 => raise RecursionError
  | S depth' =>
    d ← os_path_isdir src;
    if d : bool then
      (e ← os_path_exists dst;
       when (negb e) (mkdir_p dst)) ;;
      names ← os_listdir src;
      for_each names (λ name,
        copytree depth' (src ++ [name]) (dst ++ [name]))
    else
      print ("COPY: " +:+ render dst) ;;
      shutil_copyfile src dst
  end.

(** Lines 42-58. *)
Definition common_path : path :=
  base_path ++ ["Package"; "Environment"; "Common"].

Definition os_path (args : Namespace) : option path :=
  if String.eqb (args_os args) "windows" then
    Some (base_path ++ ["Package"; "Environment"; "Windows"])
  else if String.eqb (args_os args) "linux" then
    Some (base_path ++ ["Package"; "Environment"; "Linux"])
  else if String.eqb (args_os args) "mac" then
    Some (base_path ++ ["Package"; "Environment"; "MacOS"])
  else None.

Definition output_path (args : Namespace) : path :=
  base_path ++ ["Artifacts"; args_os args; "RetroFE"].

(** Lines 60-61. *)
Definition clean_output (args : Namespace) : M unit :=
  e ← os_path_exists (output_path args);
  when (e && hasattr args "clean") (shutil_rmtree (output_path args)).

(** Lines 64-65. *)
Definition ensure_output (args : Namespace) : M unit :=
  e ← os_path_exists (output_path args);
  when (negb (String.eqb (args_build args) "none") && negb e)
       (os_makedirs (output_path args)).

(** Lines 76-90, the body of the loop over the collections. *)
Definition scaffold_collection (args : Namespace) (collection : string) : M unit :=
  when (negb (String.prefix "_" collection))
    (let collection_base := output_path args ++ ["collections"; collection] in
     for_each dirs_to_create (λ subdir, mkdir_p (collection_base ++ subdir))).

(** Lines 74-90. *)
Definition scaffold_collections (args : Namespace) : M unit :=
  let collection_path := output_path args ++ ["collections"] in
  names ← os_listdir collection_path;
  dirs ← (λ w, Ok (filter (λ d, is_dir (fs w !! (collection_path ++ [d]))) names) w);
  for_each dirs (scaffold_collection args).

(** A call whose path argument may be [None] raises [TypeError]. *)
Definition with_path {A} (p : option path) (k : path → M A) : M A :=
  match p with Some q => k q | None => raise TypeError end.

(** Lines 67-90. *)
Definition build_full (args : Namespace) : M unit :=
  copytree recursion_limit common_path (output_path args) ;;
  with_path (os_path args) (λ p, copytree recursion_limit p (output_path args)) ;;
  mkdir_p (output_path args ++ ["meta"; "mamelist"]) ;;
  scaffold_collections args.

(** Lines 92-104. *)
Definition build_layout (args : Namespace) : M unit :=
  let layout_dest_path := output_path args ++ ["layouts"] in
  let layout_common_path := common_path ++ ["layouts"] in
  with_path (os_path args) (λ p,
    let layout_os_path := p ++ ["layouts"] in
    (e ← os_path_exists layout_dest_path;
     when (negb e) (os_makedirs layout_dest_path)) ;;
    (e ← os_path_exists layout_common_path;
     when e (copytree recursion_limit layout_common_path layout_dest_path)) ;;
    e ← os_path_exists layout_os_path;
    when e (copytree recursion_limit layout_os_path layout_dest_path)).

(** Lines 67-104. *)
Definition copy_assets (args : Namespace) : M unit :=
  if String.eqb (args_build args) "full" then build_full args
  else if String.eqb (args_build args) "layout" then build_layout args
  else mret tt.

(** [args.build == 'full' or args.build == 'core' or args.build == 'engine'] *)
Definition wants_executable (args : Namespace) : bool :=
  String.eqb (args_build args) "full"
  || String.eqb (args_build args) "core"
  || String.eqb (args_build args) "engine".

(** Lines 109-120. *)
Definition place_windows (args : Namespace) : M unit :=
  let src_exe := base_path ++ ["RetroFE"; "Build"; "Release"; "retrofe.exe"] in
  let core_path := output_path args ++ ["retrofe"] in
  (e ← os_path_exists core_path;
   when (negb e) (os_makedirs core_path)) ;;
  shutil_copy src_exe core_path.

(** Lines 123-126. *)
Definition place_linux (args : Namespace) : M unit :=
  let src_exe := base_path ++ ["RetroFE"; "Build"; "retrofe"] in
  shutil_copy src_exe (output_path args).

(** Lines 128-142. *)
Definition place_mac (args : Namespace) : M unit :=
  let release_dir := base_path ++ ["RetroFE"; "Build"; "Release"] in
  let src_app := release_dir ++ ["RetroFE.app"] in
  let src_exe := release_dir ++ ["retrofe"] in
  let dest_app := output_path args ++ ["RetroFE.app"] in
  has_app ← os_path_exists src_app;
  if has_app : bool then
    (e ← os_path_exists dest_app;
     when e (shutil_rmtree dest_app)) ;;
    shutil_copytree src_app dest_app
  else
    has_exe ← os_path_exists src_exe;
    if has_exe : bool then shutil_copy src_exe (output_path args)
    else print "Error: Neither RetroFE.app nor retrofe binary found in Release folder.".

(** Lines 109-142. *)
Definition place_executable (args : Namespace) : M unit :=
  if String.eqb (args_os args) "windows" then
    when (wants_executable args) (place_windows args)
  else if String.eqb (args_os args) "linux" then
    when (wants_executable args) (place_linux args)
  else if String.eqb (args_os args) "mac" then
    when (wants_executable args) (place_mac args)
  else mret tt.

(** Lines 60-104: the output directory and the assets. *)
Definition collect_assets (args : Namespace) : M unit :=
  clean_output args ;;
  ensure_output args ;;
  copy_assets args.

(** The statements of the script after the arguments are parsed. *)
Definition package (args : Namespace) : M unit :=
  collect_assets args ;;
  place_executable args.

(** The whole script: the exit status and the world it leaves. *)
Definition main (argv : list string) (w : world) : nat * world :=
  match parse_args argv with
  | None => (2, w)
  | Some args =>
    match package args w with
    | Ok _ w' => (0, w')
    | Raise _ w' => (1, w')
    end
  end.

(** ** The monad *)

Lemma bind_unfold {A B} (m : M A) (k : A → M B) w :
  (m ≫= k) w = match m w with Ok a w' => k a w' | Raise e w' => Raise e w' end.
Proof. reflexivity. Qed.

Lemma bind_Ok {A B} (m : M A) (k : A → M B) w b w' :
  (m ≫= k) w = Ok b w' ↔ ∃ a w1, m w = Ok a w1 ∧ k a w1 = Ok b w'.
Proof.
  rewrite bind_unfold. split.
  - destruct (m w) as [a w1|e w1]; [eauto | discriminate].
  - intros (a & w1 & -> & Hk). exact Hk.
Qed.

Lemma preserves_ret {A} (I : world → Prop) (a : A) : preserves I (mret a).
Proof. by intros w. Qed.

Lemma preserves_raise {A} (I : world → Prop) e : preserves I (raise (A:=A) e).
Proof. by intros w. Qed.

Lemma preserves_bind {A B} (I : world → Prop) (m : M A) (k : A → M B) :
  preserves I m → (∀ a, preserves I (k a)) → preserves I (m ≫= k).
Proof.
  intros Hm Hk w Hw. rewrite bind_unfold. specialize (Hm w Hw).
  destruct (m w) as [a w1|e w1]; [by apply Hk | done].
Qed.

Lemma preserves_when (I : world → Prop) b (m : M unit) :
  preserves I m → preserves I (when b m).
Proof. destruct b; [done | intros _; apply preserves_ret]. Qed.

Lemma preserves_for_each {A} (I : world → Prop) (xs : list A) body :
  (∀ x, x ∈ xs → preserves I (body x)) → preserves I (for_each xs body).
Proof.
  induction xs as [|x xs IH]; intros Hb; simpl; [apply preserves_ret |].
  apply preserves_bind; [apply Hb; left | intros _; apply IH].
  intros y Hy. apply Hb. by right.
Qed.

Lemma preserves_except_errno (I : world → Prop) e (m : M unit) :
  preserves I m → preserves I (except_errno e m).
Proof.
  intros Hm w Hw. specialize (Hm w Hw). unfold except_errno.
  destruct (m w) as [a w1|[e'| | |] w1]; try done. by case_decide.
Qed.

Lemma preserves_exists (I : world → Prop) {A} p (k : bool → M A) :
  (∀ b, preserves I (k b)) → preserves I (os_path_exists p ≫= k).
Proof. intros Hk w Hw. rewrite bind_unfold. simpl. by apply Hk. Qed.

Lemma preserves_isdir (I : world → Prop) {A} p (k : bool → M A) :
  (∀ b, preserves I (k b)) → preserves I (os_path_isdir p ≫= k).
Proof. intros Hk w Hw. rewrite bind_unfold. simpl. by apply Hk. Qed.

(** ** Paths *)

Lemma relative_to_Some p q r : relative_to p q = Some r ↔ q = p ++ r.
Proof.
  revert q. induction p as [|c p IH]; intros q; simpl.
  - split; [by intros [= ->] | by intros ->].
  - destruct q as [|c' q]; [split; [done | discriminate] |].
    case_decide as Hc; [subst c'|].
    + rewrite IH. split; [by intros -> | by intros [= ->]].
    + split; [done | intros [= ? _]; done].
Qed.

Lemma relative_to_app p r : relative_to p (p ++ r) = Some r.
Proof. by apply relative_to_Some. Qed.

Lemma under_prefix p q : under p q = true ↔ p `prefix_of` q.
Proof.
  unfold under. rewrite bool_decide_eq_true. split.
  - intros [r Hr]. exists r. by apply relative_to_Some.
  - intros [r ->]. exists r. apply relative_to_app.
Qed.

Lemma under_not_prefix p q : under p q = false ↔ ¬ p `prefix_of` q.
Proof. rewrite <- under_prefix. by destruct (under p q). Qed.

Lemma prefix_snoc_inv (p q : path) (x : string) :
  p `prefix_of` q ++ [x] → p `prefix_of` q ∨ p = q ++ [x].
Proof.
  intros [k Hk]. destruct (decide (k = [])) as [->|Hne].
  - right. by rewrite app_nil_r in Hk.
  - left. destruct (exists_last Hne) as (k' & y & ->).
    rewrite app_assoc in Hk. apply app_inj_tail in Hk as [-> _]. by exists k'.
Qed.

Lemma apart_snoc p q x : apart p q → apart (p ++ [x]) (q ++ [x]).
Proof.
  intros [Hpq Hqp]. split; intros H.
  - apply prefix_snoc_inv in H as [H | H].
    + apply Hpq. by eapply prefix_app_l.
    + apply app_inj_tail in H as [-> _]. by apply Hpq.
  - apply prefix_snoc_inv in H as [H | H].
    + apply Hqp. by eapply prefix_app_l.
    + apply app_inj_tail in H as [-> _]. by apply Hpq.
Qed.

(** ** Well-formed filesystems *)

Lemma is_dir_Some (o : option node) : is_dir o → is_Some o.
Proof. destruct o; [eauto | done]. Qed.

Lemma dirname_snoc (p : path) x : dirname (p ++ [x]) = p.
Proof. apply removelast_last. Qed.

Lemma snoc_dirname (p : path) : p ≠ [] → p = dirname p ++ [basename p].
Proof. intros. by apply app_removelast_last. Qed.

Lemma wf_below m p r :
  wf m → r ≠ [] → is_Some (m !! (p ++ r)) → is_dir (m !! p).
Proof.
  intros [_ Hwf]. induction r as [|x r IH] using rev_ind; [done |].
  intros _ Hs. rewrite app_assoc in Hs. apply Hwf in Hs.
  destruct (decide (r = [])) as [->|Hr]; [by rewrite app_nil_r in Hs |].
  apply IH; [done | by apply is_dir_Some].
Qed.

Lemma wf_prefix m p q :
  wf m → p `prefix_of` q → is_Some (m !! q) → is_Some (m !! p).
Proof.
  intros Hwf [r ->] Hs. destruct (decide (r = [])) as [->|Hr].
  - by rewrite app_nil_r in Hs.
  - apply is_dir_Some. by eapply wf_below.
Qed.

Lemma wf_insert m p n :
  wf m → is_dir (m !! dirname p) → p ≠ [] → ¬ is_dir (m !! p) →
  wf (<[p := n]> m).
Proof.
  intros Hwf Hpar Hp Hnd. split.
  - rewrite lookup_insert_ne; [apply Hwf | done].
  - intros q x Hs. destruct (decide (p = q)) as [<-|Hq].
    + rewrite lookup_insert_ne in Hs.
      * destruct Hnd. by apply Hwf in Hs.
      * intros H. by apply (prefix_snoc_not p x); rewrite <- H.
    + rewrite lookup_insert_ne; [| done].
      destruct (decide (p = q ++ [x])) as [->|Hqx].
      * by rewrite dirname_snoc in Hpar.
      * rewrite lookup_insert_ne in Hs; [| done]. by apply Hwf in Hs.
Qed.

Lemma wf_insert_dir m p b :
  wf m → is_dir (m !! dirname p) → m !! p = None → wf (<[p := Dir b]> m).
Proof.
  intros Hwf Hpar Hp. apply wf_insert; try done.
  - intros ->. destruct Hwf as [Hroot _]. by rewrite Hp in Hroot.
  - rewrite Hp. by intros ?.
Qed.

Lemma wf_world_commit n w m :
  wf_world n w → wf m → wf_world n (World m (stdout w) (hist w ++ [m])).
Proof.
  intros [? Hh] Hm. split; [done |]. simpl. rewrite drop_app.
  apply Forall_app. split; [done |].
  apply Forall_drop. by apply Forall_singleton.
Qed.

Lemma wf_world_init w : wf (fs w) → wf_world (length (hist w)) w.
Proof. intros Hwf. split; [done |]. by rewrite drop_all. Qed.

(** ** [os.stat], [os.mkdir] and [os.makedirs] *)

Lemma stat_inr m p n : stat m p = inr n ↔ m !! p = Some n.
Proof.
  unfold stat. destruct (m !! p) as [n'|].
  - split; by intros [= ->].
  - split; [by case_match | done].
Qed.

Lemma may_create_None m p :
  may_create m p = None ↔ m !! dirname p = Some (Dir true).
Proof.
  unfold may_create. destruct (stat m (dirname p)) as [e|n] eqn:Hst.
  - split; [done |]. intros H. apply stat_inr in H. congruence.
  - apply stat_inr in Hst. rewrite Hst. destruct n as [|[]]; split; done.
Qed.

Lemma may_create_not_EEXIST m p : may_create m p ≠ Some EEXIST.
Proof.
  unfold may_create, stat.
  destruct (m !! dirname p) as [[|[]]|]; try done.
  by destruct (existsb _ _).
Qed.

Lemma os_mkdir_Ok p w a w' :
  os_mkdir p w = Ok a w' ↔
  fs w !! p = None ∧ fs w !! dirname p = Some (Dir true) ∧
  w' = World (<[p := Dir true]> (fs w)) (stdout w)
             (hist w ++ [<[p := Dir true]> (fs w)]).
Proof.
  unfold os_mkdir. destruct a. destruct (fs w !! p) as [n|] eqn:Hp.
  - split; [done | by intros [? _]].
  - destruct (may_create (fs w) p) as [e|] eqn:Hc.
    + split; [done |]. intros (_ & H & _).
      apply may_create_None in H. congruence.
    + apply may_create_None in Hc. unfold commit.
      split; [by intros [= <-] | by intros (_ & _ & ->)].
Qed.

Lemma os_mkdir_Raise p w e w' :
  os_mkdir p w = Raise e w' →
  w' = w ∧ ∃ n, e = OSError n ∧ (n = EEXIST ↔ is_Some (fs w !! p)).
Proof.
  unfold os_mkdir. destruct (fs w !! p) as [n|] eqn:Hp.
  - intros [= <- <-]. split; [done |]. exists EEXIST. split; [done |].
    split; eauto.
  - destruct (may_create (fs w) p) as [n|] eqn:Hc; [| done].
    intros [= <- <-]. split; [done |]. exists n. split; [done |].
    split; [| by intros [? [=]]].
    intros ->. by destruct (may_create_not_EEXIST (fs w) p).
Qed.

Lemma os_mkdir_exists p w :
  is_Some (fs w !! p) → os_mkdir p w = Raise (OSError EEXIST) w.
Proof. intros [n Hn]. unfold os_mkdir. by rewrite Hn. Qed.

Lemma os_mkdir_wf n p : preserves (wf_world n) (os_mkdir p).
Proof.
  intros w Hw. destruct (os_mkdir p w) as [a w'|e w'] eqn:Hm.
  - apply os_mkdir_Ok in Hm as (Hp & Hd & ->). simpl.
    apply wf_world_commit; [done |]. apply wf_insert_dir; [apply Hw | | done].
    by rewrite Hd.
  - by apply os_mkdir_Raise in Hm as [-> _].
Qed.

Lemma makedirs_rev_wf n rp : preserves (wf_world n) (makedirs_rev rp).
Proof.
  induction rp as [|t rh IH]; simpl; [apply os_mkdir_wf |].
  apply preserves_bind; [| intros _; apply os_mkdir_wf].
  apply preserves_exists. intros b. apply preserves_when.
  by apply preserves_except_errno.
Qed.

Lemma os_makedirs_wf n p : preserves (wf_world n) (os_makedirs p).
Proof. apply makedirs_rev_wf. Qed.

(** ** Two-state properties *)

Lemma steps_preserves {A} (R : relation world) `{!Transitive R} (m : M A) w0 :
  steps R m → preserves (R w0) m.
Proof. intros Hm w Hw. by etrans. Qed.

Lemma preserves_steps {A} (R : relation world) `{!Reflexive R} (m : M A) :
  (∀ w0, preserves (R w0) m) → steps R m.
Proof. intros Hm w. by apply Hm. Qed.

Lemma steps_mono {A} (R R' : relation world) (m : M A) :
  (∀ w w', R w w' → R' w w') → steps R m → steps R' m.
Proof. intros HR Hm w. apply HR, Hm. Qed.

#[local] Instance same_outside_preorder P : PreOrder (same_outside P).
Proof.
  split; [by intros w q | ].
  intros w1 w2 w3 H12 H23 q Hq. rewrite H23, H12; done.
Qed.

Lemma same_outside_mono (P Q : path → Prop) w w' :
  (∀ q, P q → Q q) → same_outside P w w' → same_outside Q w w'.
Proof. intros HPQ H q Hq. apply H. naive_solver. Qed.

#[local] Instance adds_dirs_preorder P : PreOrder (adds_dirs P).
Proof.
  split; [by left | ].
  intros w1 w2 w3 H12 H23 q.
  destruct (H12 q) as [E12 | (HP & N1 & D2)], (H23 q) as [E23 | (HP' & N2 & D3)].
  - left. congruence.
  - right. by rewrite <- E12.
  - right. by rewrite E23.
  - congruence.
Qed.

Lemma adds_dirs_mono (P Q : path → Prop) w w' :
  (∀ q, P q → Q q) → adds_dirs P w w' → adds_dirs Q w w'.
Proof. intros HPQ H q. destruct (H q) as [? | (? & ? & ?)]; eauto. Qed.

Lemma adds_dirs_same_outside P w w' : adds_dirs P w w' → same_outside P w w'.
Proof. intros H q Hq. by destruct (H q) as [? | (? & _)]. Qed.

Lemma adds_dirs_keeps P w w' q n :
  adds_dirs P w w' → fs w !! q = Some n → fs w' !! q = Some n.
Proof. intros H Hq. destruct (H q) as [-> | (_ & ? & _)]; congruence. Qed.

Lemma adds_dirs_after P w w' q :
  adds_dirs P w w' → is_Some (fs w' !! q) →
  fs w' !! q = match fs w !! q with Some n => Some n | None => Some (Dir true) end.
Proof.
  intros H [n Hn]. destruct (H q) as [E | (_ & -> & ->)]; [| done].
  rewrite <- E, Hn. done.
Qed.

#[local] Instance same_stdout_preorder : PreOrder same_stdout.
Proof. split; [done |]. intros w1 w2 w3 H12 H23. unfold same_stdout in *. congruence. Qed.

Lemma os_mkdir_adds p : steps (adds_dirs (λ q, q = p)) (os_mkdir p).
Proof.
  intros w. destruct (os_mkdir p w) as [a w'|e w'] eqn:Hm.
  - apply os_mkdir_Ok in Hm as (Hp & Hd & ->). intros q. simpl.
    destruct (decide (q = p)) as [->|Hq].
    + right. by rewrite lookup_insert_eq.
    + left. by rewrite lookup_insert_ne.
  - apply os_mkdir_Raise in Hm as [-> _]. reflexivity.
Qed.

Lemma os_mkdir_stdout p : steps same_stdout (os_mkdir p).
Proof.
  intros w. destruct (os_mkdir p w) as [a w'|e w'] eqn:Hm.
  - by apply os_mkdir_Ok in Hm as (_ & _ & ->).
  - by apply os_mkdir_Raise in Hm as [-> _].
Qed.

Lemma makedirs_rev_adds rp :
  steps (adds_dirs (λ q, q `prefix_of` rev rp)) (makedirs_rev rp).
Proof.
  induction rp as [|t rh IH]; simpl.
  - eapply steps_mono; [| apply os_mkdir_adds].
    intros w w'. apply adds_dirs_mono. by intros q ->.
  - apply preserves_steps; [apply _ |]. intros w0.
    apply preserves_bind.
    + apply preserves_exists. intros b. apply preserves_when.
      apply preserves_except_errno. apply steps_preserves; [apply _ |].
      eapply steps_mono; [| apply IH].
      intros w w'. apply adds_dirs_mono. intros q Hq. by apply prefix_app_r.
    + intros _. apply steps_preserves; [apply _ |].
      eapply steps_mono; [| apply os_mkdir_adds].
      intros w w'. apply adds_dirs_mono. by intros q ->.
Qed.

Lemma os_makedirs_adds p :
  steps (adds_dirs (λ q, q `prefix_of` p)) (os_makedirs p).
Proof.
  unfold os_makedirs. pose proof (makedirs_rev_adds (rev p)) as H.
  by rewrite rev_involutive in H.
Qed.

Lemma makedirs_rev_stdout rp : steps same_stdout (makedirs_rev rp).
Proof.
  induction rp as [|t rh IH]; simpl; [apply os_mkdir_stdout |].
  apply preserves_steps; [apply _ |]. intros w0. apply preserves_bind.
  - apply preserves_exists. intros b. apply preserves_when.
    apply preserves_except_errno. by apply steps_preserves; [apply _ |].
  - intros _. apply steps_preserves; [apply _ | apply os_mkdir_stdout].
Qed.

Lemma except_errno_Raise e (m : M unit) w e' w' :
  except_errno e m w = Raise e' w' ↔ m w = Raise e' w' ∧ e' ≠ OSError e.
Proof.
  unfold except_errno. destruct (m w) as [a w1|ex w1].
  { split; [intros [=] | intros [[=] _]]. }
  destruct ex as [n| | |];
    try (split; [by intros [= <- <-] | by intros [[= <- <-] _]]).
  case_decide as Hn; [subst n|].
  - split; [intros [=] | intros [[= <- <-] ?]; congruence].
  - split; [intros [= <- <-]; split; [done | congruence] | by intros [[= <- <-] _]].
Qed.

Lemma except_errno_Ok e (m : M unit) w w' :
  except_errno e m w = Ok tt w' ↔ m w = Ok tt w' ∨ m w = Raise (OSError e) w'.
Proof.
  unfold except_errno. destruct (m w) as [[] w1|ex w1].
  { split; [intros [= ->]; by left | by intros [[= ->] | [=]]]. }
  destruct ex as [n| | |]; try solve [split; [intros [=] | intros [[=] | [=]]]].
  case_decide as Hn; [subst n|].
  - split; [intros [= ->]; by right | by intros [[=] | [= ->]]].
  - split; [intros [=] | intros [[=] | [= -> ->]]; done].
Qed.

(** What [os.makedirs] leaves at the path it was asked for. *)
Lemma makedirs_rev_result rp w :
  match makedirs_rev rp w with
  | Ok _ w' => fs w' !! rev rp = Some (Dir true)
  | Raise e w' => e = OSError EEXIST → is_Some (fs w' !! rev rp)
  end.
Proof.
  assert (Hlast : ∀ p w,
    match os_mkdir p w with
    | Ok _ w' => fs w' !! p = Some (Dir true)
    | Raise e w' => e = OSError EEXIST → is_Some (fs w' !! p)
    end).
  { intros p w1. destruct (os_mkdir p w1) as [a w'|e w'] eqn:Hm.
    - apply os_mkdir_Ok in Hm as (_ & _ & ->). simpl. apply lookup_insert_eq.
    - apply os_mkdir_Raise in Hm as (-> & n & -> & Hn). intros [= ->]. by apply Hn. }
  destruct rp as [|t rh]; [apply Hlast |].
  cbn [makedirs_rev]. rewrite bind_unfold.
  destruct ((os_path_exists (rev rh) ≫= _) w) as [a w1|e w1] eqn:H1; [apply Hlast |].
  intros ->. exfalso. revert H1. rewrite bind_unfold. simpl.
  destruct (bool_decide _); simpl; [done |].
  intros H1. by apply except_errno_Raise in H1 as [_ ?].
Qed.

Lemma makedirs_rev_exists rp w :
  wf (fs w) → is_Some (fs w !! rev rp) →
  makedirs_rev rp w = Raise (OSError EEXIST) w.
Proof.
  intros Hwf Hs. destruct rp as [|t rh]; [by apply os_mkdir_exists |].
  cbn [makedirs_rev]. rewrite !bind_unfold. simpl.
  rewrite bool_decide_eq_true_2.
  - simpl. by apply os_mkdir_exists.
  - eapply wf_prefix; [done | | exact Hs]. simpl. by apply prefix_app_r.
Qed.

(** The first missing component cannot be created: the error of that
    [os.mkdir] is the error of [os.makedirs], and nothing is created. *)
Lemma makedirs_rev_blocked rp w q x r e :
  wf (fs w) → rev rp = q ++ x :: r → is_Some (fs w !! q) →
  fs w !! (q ++ [x]) = None → may_create (fs w) (q ++ [x]) = Some e →
  makedirs_rev rp w = Raise (OSError e) w.
Proof.
  intros Hwf. revert r. induction rp as [|t rh IH]; intros r Hrp Hq Hx Hc.
  - simpl in Hrp. by destruct q.
  - simpl in Hrp. cbn [makedirs_rev]. rewrite !bind_unfold. simpl.
    destruct (decide (r = [])) as [->|Hr].
    + apply app_inj_tail in Hrp as [-> ->].
      rewrite bool_decide_eq_true_2.
      * simpl. unfold os_mkdir. by rewrite Hx, Hc.
      * done.
    + destruct (exists_last Hr) as (r' & y & ->).
      rewrite app_comm_cons, app_assoc in Hrp.
      apply app_inj_tail in Hrp as [Hrh ->].
      rewrite bool_decide_eq_false_2.
      * simpl. unfold except_errno. erewrite IH; [| done..].
        case_decide as He; [| done].
        subst e. by destruct (may_create_not_EEXIST (fs w) (q ++ [x])).
      * intros Hs. rewrite Hrh in Hs.
        eapply wf_prefix in Hs; [| done | by rewrite (cons_middle x), app_assoc; apply prefix_app_r].
        rewrite Hx in Hs. by destruct Hs.
Qed.

Lemma os_makedirs_exists p w :
  wf (fs w) → is_Some (fs w !! p) → os_makedirs p w = Raise (OSError EEXIST) w.
Proof.
  intros Hwf Hs. apply makedirs_rev_exists; [done |]. by rewrite rev_involutive.
Qed.

Lemma os_makedirs_blocked p w q x r e :
  wf (fs w) → p = q ++ x :: r → is_Some (fs w !! q) →
  fs w !! (q ++ [x]) = None → may_create (fs w) (q ++ [x]) = Some e →
  os_makedirs p w = Raise (OSError e) w.
Proof.
  intros Hwf -> Hq Hx Hc. eapply makedirs_rev_blocked; try done.
  by rewrite rev_involutive.
Qed.

Lemma os_makedirs_result p w :
  match os_makedirs p w with
  | Ok _ w' => fs w' !! p = Some (Dir true)
  | Raise e w' => e = OSError EEXIST → is_Some (fs w' !! p)
  end.
Proof.
  pose proof (makedirs_rev_result (rev p) w) as H.
  by rewrite rev_involutive in H.
Qed.

Lemma wf_check_spec m : wf_check m = true → wf m.
Proof.
  unfold wf_check. rewrite andb_true_iff, forallb_forall.
  intros [Hroot Hall]. split; [by apply Is_true_true |].
  intros p x [n Hn]. apply elem_of_map_to_list, list_elem_of_In in Hn.
  apply Hall in Hn. simpl in Hn. rewrite dirname_snoc in Hn.
  destruct (p ++ [x]) eqn:E; [by destruct p | by apply Is_true_true].
Qed.

(** ** [mkdir_p] *)

Lemma final_except_errno e (m : M unit) w :
  final (except_errno e m w) = final (m w).
Proof.
  unfold except_errno. destruct (m w) as [a w1|[n| | |] w1]; try done.
  by case_decide.
Qed.

Lemma mkdir_p_unfold p w :
  mkdir_p p w =
  except_errno EEXIST (os_makedirs p) (printed ("CREATE: " +:+ render p) w).
Proof. reflexivity. Qed.

Lemma print_wf n line : preserves (wf_world n) (print line).
Proof. by intros w. Qed.

Lemma mkdir_p_wf n p : preserves (wf_world n) (mkdir_p p).
Proof.
  apply preserves_bind; [apply print_wf | intros _].
  apply preserves_except_errno, os_makedirs_wf.
Qed.

Lemma mkdir_p_adds p : steps (adds_dirs (λ q, q `prefix_of` p)) (mkdir_p p).
Proof.
  intros w. rewrite mkdir_p_unfold, final_except_errno.
  apply (os_makedirs_adds p (printed _ w)).
Qed.

Lemma mkdir_p_stdout p w :
  stdout (final (mkdir_p p w)) = stdout w ++ ["CREATE: " +:+ render p].
Proof.
  rewrite mkdir_p_unfold, final_except_errno.
  apply (makedirs_rev_stdout (rev p) (printed _ w)).
Qed.

Lemma mkdir_p_Ok_result p w w1 :
  mkdir_p p w = Ok tt w1 →
  fs w1 !! p = match fs w !! p with Some n => Some n | None => Some (Dir true) end.
Proof.
  intros Hm. pose proof (mkdir_p_adds p w) as Ha. rewrite Hm in Ha. simpl in Ha.
  apply (adds_dirs_after _ _ _ _ Ha).
  rewrite mkdir_p_unfold in Hm. apply except_errno_Ok in Hm.
  pose proof (os_makedirs_result p (printed ("CREATE: " +:+ render p) w)) as Hr.
  destruct Hm as [Hm | Hm]; rewrite Hm in Hr; [by rewrite Hr | by apply Hr].
Qed.

Lemma mkdir_p_exists p w :
  wf (fs w) → is_Some (fs w !! p) →
  mkdir_p p w = Ok tt (printed ("CREATE: " +:+ render p) w).
Proof.
  intros Hwf Hs. rewrite mkdir_p_unfold. apply except_errno_Ok. right.
  by apply os_makedirs_exists.
Qed.

(** ** [os.listdir] and [shutil.copyfile] *)

Lemma preserves_listdir (I : world → Prop) {A} p (k : list string → M A) :
  (∀ names, preserves I (k names)) → preserves I (os_listdir p ≫= k).
Proof.
  intros Hk w Hw. rewrite bind_unfold. unfold os_listdir.
  destruct (stat (fs w) p) as [e|[d|b]]; try done. by apply Hk.
Qed.

Lemma os_listdir_Ok p w names w' :
  os_listdir p w = Ok names w' →
  w' = w ∧ is_dir (fs w !! p) ∧ names = listdir_order p (children (fs w) p).
Proof.
  unfold os_listdir. destruct (stat (fs w) p) as [e|[d|b]] eqn:Hst; try done.
  intros [= <- <-]. apply stat_inr in Hst. by rewrite Hst.
Qed.

Lemma elem_of_children m p x : x ∈ children m p ↔ is_Some (m !! (p ++ [x])).
Proof.
  unfold children. rewrite list_elem_of_omap. split.
  - intros ([q n] & Hin & Hf). simpl in Hf.
    destruct (relative_to p q) as [[|y [|??]]|] eqn:Hr; try done.
    injection Hf as ->. apply relative_to_Some in Hr as ->.
    apply elem_of_map_to_list in Hin. eauto.
  - intros [n Hn]. exists (p ++ [x], n). split; [by apply elem_of_map_to_list |].
    simpl. by rewrite relative_to_app.
Qed.

Lemma NoDup_children m p : NoDup (children m p).
Proof.
  unfold children. pose proof (NoDup_fst_map_to_list m) as Hnd.
  induction (map_to_list m) as [|[q n] l IH]; simpl; [constructor |].
  apply NoDup_cons in Hnd as [Hq Hnd].
  destruct (relative_to p q) as [[|y [|??]]|] eqn:Hr; try by apply IH.
  apply NoDup_cons. split; [| by apply IH].
  intros Hy. apply list_elem_of_omap in Hy as ([q' n'] & Hin & Hf). simpl in Hf.
  destruct (relative_to p q') as [[|y' [|??]]|] eqn:Hr'; try done.
  injection Hf as ->. apply relative_to_Some in Hr as ->.
  apply relative_to_Some in Hr' as ->.
  apply Hq. apply list_elem_of_fmap. by exists (p ++ [y], n').
Qed.

Lemma elem_of_listdir m p x :
  x ∈ listdir_order p (children m p) ↔ is_Some (m !! (p ++ [x])).
Proof. by rewrite listdir_order_perm, elem_of_children. Qed.

Lemma NoDup_listdir m p : NoDup (listdir_order p (children m p)).
Proof. rewrite listdir_order_perm. apply NoDup_children. Qed.

Lemma shutil_copyfile_Ok src dst w a w' :
  shutil_copyfile src dst w = Ok a w' →
  ∃ data, fs w !! src = Some (File data) ∧ src ≠ dst ∧
          ¬ is_dir (fs w !! dst) ∧
          (fs w !! dst = None → fs w !! dirname dst = Some (Dir true)) ∧
          w' = World (<[dst := File data]> (fs w)) (stdout w)
                     (hist w ++ [<[dst := File data]> (fs w)]).
Proof.
  unfold shutil_copyfile.
  destruct (stat (fs w) src) as [e|[data|b]] eqn:Hst;
    try (by case_match).
  apply stat_inr in Hst. rewrite Hst.
  rewrite (bool_decide_eq_true_2 (is_Some _)); [| eauto].
  rewrite andb_true_r. case_bool_decide as Hne; [done |].
  destruct (fs w !! dst) as [[d|b]|] eqn:Hdst; try done.
  - intros [= <-]. exists data. split_and!; try done. by intros ?.
  - destruct (may_create (fs w) dst) as [e|] eqn:Hc; [done |].
    apply may_create_None in Hc. intros [= <-]. exists data.
    split_and!; try done. by intros ?.
Qed.

Lemma shutil_copyfile_Raise src dst w e w' :
  shutil_copyfile src dst w = Raise e w' → w' = w.
Proof.
  unfold shutil_copyfile, commit. intros H.
  repeat (case_match; try done); by injection H.
Qed.

Lemma shutil_copyfile_wf n src dst : preserves (wf_world n) (shutil_copyfile src dst).
Proof.
  intros w Hw. destruct (shutil_copyfile src dst w) as [a w'|e w'] eqn:Hc.
  - apply shutil_copyfile_Ok in Hc as (data & Hsrc & Hne & Hnd & Hpar & ->).
    simpl. apply wf_world_commit; [done |]. destruct Hw as [Hwf _].
    destruct (fs w !! dst) as [nd|] eqn:Hdst.
    + destruct (decide (dst = [])) as [->|Hdne].
      { destruct Hwf as [Hroot _]. by rewrite Hdst in Hroot. }
      apply wf_insert; try done.
      * rewrite (snoc_dirname dst Hdne) in Hdst. by eapply (proj2 Hwf).
      * by rewrite Hdst.
    + apply wf_insert; try done.
      * by rewrite Hpar.
      * intros ->. destruct Hwf as [Hroot _]. by rewrite Hdst in Hroot.
      * by rewrite Hdst.
  - by apply shutil_copyfile_Raise in Hc as ->.
Qed.

Lemma shutil_copyfile_same_outside src dst :
  steps (same_outside (λ q, q = dst)) (shutil_copyfile src dst).
Proof.
  intros w. destruct (shutil_copyfile src dst w) as [a w'|e w'] eqn:Hc.
  - apply shutil_copyfile_Ok in Hc as (data & _ & _ & _ & _ & ->).
    intros q Hq. simpl. by rewrite lookup_insert_ne.
  - apply shutil_copyfile_Raise in Hc as ->. reflexivity.
Qed.

(** ** [copytree] *)

Lemma related_snoc dst x q : related (dst ++ [x]) q → related dst q.
Proof.
  intros [H | H].
  - apply prefix_snoc_inv in H as [H | ->]; [by left | right].
    by apply prefix_app_r.
  - right. by eapply prefix_app_l.
Qed.

Lemma copytree_wf n depth src dst :
  preserves (wf_world n) (copytree depth src dst).
Proof.
  revert src dst. induction depth as [|depth IH]; intros src dst;
    cbn [copytree]; [apply preserves_raise |].
  apply preserves_isdir. intros [|].
  - apply preserves_bind.
    + apply preserves_exists. intros b. apply preserves_when, mkdir_p_wf.
    + intros _. apply preserves_listdir. intros names.
      apply preserves_for_each. intros x _. apply IH.
  - apply preserves_bind; [apply print_wf | intros _; apply shutil_copyfile_wf].
Qed.

Lemma copytree_same_outside depth src dst :
  steps (same_outside (related dst)) (copytree depth src dst).
Proof.
  revert src dst. induction depth as [|depth IH]; intros src dst;
    cbn [copytree]; [by intros w |].
  apply preserves_steps; [apply _ |]. intros w0.
  apply preserves_isdir. intros [|].
  - apply preserves_bind.
    + apply preserves_exists. intros b. apply preserves_when.
      apply steps_preserves; [apply _ |].
      eapply steps_mono; [| apply mkdir_p_adds]. intros w w' H.
      apply adds_dirs_same_outside in H. revert H.
      apply same_outside_mono. intros q Hq. by left.
    + intros _. apply preserves_listdir. intros names.
      apply preserves_for_each. intros x _.
      apply steps_preserves; [apply _ |].
      eapply steps_mono; [| apply IH]. intros w w'.
      apply same_outside_mono. intros q. apply related_snoc.
  - apply preserves_bind; [by intros w |]. intros _.
    apply steps_preserves; [apply _ |].
    eapply steps_mono; [| apply shutil_copyfile_same_outside]. intros w w'.
    apply same_outside_mono. intros q ->. by left.
Qed.

Lemma apart_not_related src dst rel : apart src dst → ¬ related dst (src ++ rel).
Proof.
  intros [Hsd Hds] [H | H].
  - apply Hsd. by eapply prefix_app_l.
  - destruct (prefix_weak_total dst src (src ++ rel)) as [?|?]; try done.
    by apply prefix_app_r.
Qed.

Lemma siblings_not_related (dst : path) x y rel :
  x ≠ y → ¬ related (dst ++ [y]) (dst ++ x :: rel).
Proof.
  intros Hxy [H | H]; apply prefix_app_inv, prefix_cons_inv_1 in H; congruence.
Qed.

Lemma for_each_same_outside {A} (P : A → path → Prop) xs (body : A → M unit) :
  (∀ x, x ∈ xs → steps (same_outside (P x)) (body x)) →
  steps (same_outside (λ q, ∃ x, x ∈ xs ∧ P x q)) (for_each xs body).
Proof.
  intros Hb. apply preserves_steps; [apply _ |]. intros w0.
  apply preserves_for_each. intros x Hx. apply steps_preserves; [apply _ |].
  eapply steps_mono; [| by apply Hb]. intros w w'.
  apply same_outside_mono. eauto.
Qed.

Lemma for_each_cons_Ok {A} (x : A) xs (body : A → M unit) w w' :
  for_each (x :: xs) body w = Ok tt w' ↔
  ∃ w1, body x w = Ok tt w1 ∧ for_each xs body w1 = Ok tt w'.
Proof.
  cbn [for_each]. rewrite bind_Ok. split.
  - intros ([] & w1 & ? & ?). eauto.
  - intros (w1 & ? & ?). by exists tt, w1.
Qed.

Lemma preserves_Ok {A} (I : world → Prop) (m : M A) w a w' :
  preserves I m → I w → m w = Ok a w' → I w'.
Proof. intros Hm Hw E. specialize (Hm w Hw). by rewrite E in Hm. Qed.

Lemma steps_Ok {A} (R : relation world) (m : M A) w a w' :
  steps R m → m w = Ok a w' → R w w'.
Proof. intros Hm E. specialize (Hm w). by rewrite E in Hm. Qed.

(** Every regular file below [src] is, after a copy that completed, at the
    same place below [dst] with the same bytes. *)
Lemma copytree_copies depth src dst n w w' :
  wf_world n w → apart src dst → copytree depth src dst w = Ok tt w' →
  ∀ rel data, fs w !! (src ++ rel) = Some (File data) →
              fs w' !! (dst ++ rel) = Some (File data).
Proof.
  revert src dst w w'.
  induction depth as [|depth IH]; intros src dst w w' Hw Hap Hc rel data Hrel;
    [done |].
  cbn [copytree] in Hc. apply bind_Ok in Hc as (d & w0 & Hd & Hc).
  injection Hd as <- <-.
  destruct (is_dir (fs w !! src)) eqn:Hsrc.
  - (* [src] is a directory *)
    apply bind_Ok in Hc as ([] & w1 & H1 & Hc).
    apply bind_Ok in Hc as (names & w1' & Hl & Hloop).
    apply os_listdir_Ok in Hl as (-> & _ & ->).
    assert (Hw1 : wf_world n w1).
    { revert H1. apply preserves_Ok; [| done].
      apply preserves_exists. intros b. apply preserves_when, mkdir_p_wf. }
    assert (Hs1 : same_outside (related dst) w w1).
    { revert H1. apply steps_Ok. apply preserves_steps; [apply _ |]. intros w0.
      apply preserves_exists. intros b. apply preserves_when.
      apply steps_preserves; [apply _ |].
      eapply steps_mono; [| apply mkdir_p_adds]. intros v v' H.
      apply adds_dirs_same_outside in H. revert H.
      apply same_outside_mono. intros q Hq. by left. }
    destruct rel as [|x rel].
    { rewrite app_nil_r in Hrel. by rewrite Hrel in Hsrc. }
    rewrite <- Hs1 in Hrel by by apply apart_not_related.
    assert (Hx : x ∈ listdir_order src (children (fs w1) src)).
    { apply elem_of_listdir. eapply wf_prefix; [apply Hw1 | | by eexists].
      exists rel. by rewrite <- app_assoc. }
    pose proof (NoDup_listdir (fs w1) src) as Hnd.
    revert Hw1 Hloop Hx Hrel Hnd. clear H1 Hs1 Hw Hsrc.
    generalize (listdir_order src (children (fs w1) src)). intros names.
    revert w1. induction names as [|y ys IHn]; intros w1 Hw1 Hloop Hx Hrel Hnd.
    { by apply elem_of_nil in Hx. }
    apply for_each_cons_Ok in Hloop as (w2 & Hb & Hloop).
    apply NoDup_cons in Hnd as [Hy Hnd].
    assert (Hw2 : wf_world n w2).
    { revert Hb. apply preserves_Ok; [apply copytree_wf | done]. }
    apply elem_of_cons in Hx as [-> | Hx].
    + (* this entry is copied now, and left alone afterwards *)
      assert (Hcp : fs w2 !! ((dst ++ [y]) ++ rel) = Some (File data)).
      { eapply IH; [exact Hw1 | by apply apart_snoc | exact Hb |].
        by rewrite <- app_assoc. }
      rewrite <- app_assoc in Hcp. simpl in Hcp. rewrite <- Hcp.
      eapply (steps_Ok _ _ _ _ _ (for_each_same_outside
                (λ z, related (dst ++ [z])) ys _ _) Hloop).
      intros (z & Hz & Hrelz). apply siblings_not_related in Hrelz; [done |].
      by intros ->.
    + (* this entry is copied later; the source is not touched meanwhile *)
      apply (IHn w2); try done.
      rewrite <- Hrel. apply (steps_Ok _ _ _ _ _ (copytree_same_outside _ _ _) Hb).
      intros Hr. apply related_snoc in Hr. by eapply apart_not_related.
  - (* [src] is not a directory *)
    apply bind_Ok in Hc as ([] & w1 & H1 & Hc). injection H1 as <-.
    apply shutil_copyfile_Ok in Hc as (data' & Hs & _ & _ & _ & ->). simpl in *.
    destruct rel as [|x rel].
    + rewrite app_nil_r in *. rewrite Hrel in Hs. injection Hs as <-.
      apply lookup_insert_eq.
    + assert (is_dir (fs w !! src)) as Hd; [| by rewrite Hsrc in Hd].
      eapply wf_below; [apply Hw | | by eexists]. done.
  Unshelve. intros z _. apply copytree_same_outside.
Qed.

(** ** [shutil.rmtree] *)

Lemma lookup_rmtree (m : FS) p q :
  filter (λ kv, under p kv.1 = false) m !! q = if under p q then None else m !! q.
Proof.
  destruct (under p q) eqn:Hu.
  - apply map_lookup_filter_None. right. intros n _. simpl. by rewrite Hu.
  - destruct (m !! q) as [n|] eqn:Hq.
    + by apply map_lookup_filter_Some.
    + apply map_lookup_filter_None. by left.
Qed.

Lemma shutil_rmtree_Ok p w a w' :
  shutil_rmtree p w = Ok a w' →
  is_dir (fs w !! p) ∧ p ≠ [] ∧
  w' = World (filter (λ kv, under p kv.1 = false) (fs w)) (stdout w)
             (hist w ++ [filter (λ kv, under p kv.1 = false) (fs w)]).
Proof.
  unfold shutil_rmtree.
  destruct (stat (fs w) p) as [e|[d|b]] eqn:Hst; try done.
  apply stat_inr in Hst.
  destruct (forallb _ _) eqn:Hall; [| done].
  intros [= <-]. split_and!; [by rewrite Hst | | done].
  intros ->. rewrite forallb_forall in Hall.
  specialize (Hall ([], Dir b)). simpl in Hall.
  assert (false = true) as [=].
  by apply Hall, list_elem_of_In, elem_of_map_to_list.
Qed.

Lemma shutil_rmtree_Raise p w e w' : shutil_rmtree p w = Raise e w' → w' = w.
Proof.
  unfold shutil_rmtree, commit. intros H.
  repeat (case_match; try done); by injection H.
Qed.

Lemma shutil_rmtree_same_outside p :
  steps (same_outside (λ q, p `prefix_of` q)) (shutil_rmtree p).
Proof.
  intros w. destruct (shutil_rmtree p w) as [a w'|e w'] eqn:Hr.
  - apply shutil_rmtree_Ok in Hr as (_ & _ & ->). intros q Hq. simpl.
    rewrite lookup_rmtree. apply under_not_prefix in Hq. by rewrite Hq.
  - apply shutil_rmtree_Raise in Hr as ->. reflexivity.
Qed.

Lemma shutil_rmtree_gone p w a w' q :
  shutil_rmtree p w = Ok a w' → p `prefix_of` q → fs w' !! q = None.
Proof.
  intros Hr Hq. apply shutil_rmtree_Ok in Hr as (_ & _ & ->). simpl.
  rewrite lookup_rmtree. apply under_prefix in Hq. by rewrite Hq.
Qed.

Lemma shutil_rmtree_stdout p : steps same_stdout (shutil_rmtree p).
Proof.
  intros w. destruct (shutil_rmtree p w) as [a w'|e w'] eqn:Hr.
  - by apply shutil_rmtree_Ok in Hr as (_ & _ & ->).
  - by apply shutil_rmtree_Raise in Hr as ->.
Qed.

(** ** Directories stay *)

#[local] Instance keeps_dirs_preorder : PreOrder keeps_dirs.
Proof. split; [by intros w q b | ]. intros w1 w2 w3 H12 H23 q b Hq. eauto. Qed.

Lemma adds_dirs_keeps_dirs P w w' : adds_dirs P w w' → keeps_dirs w w'.
Proof. intros H q b. by apply (adds_dirs_keeps P). Qed.

Lemma mkdir_p_keeps_dirs p : steps keeps_dirs (mkdir_p p).
Proof. intros w. exact (adds_dirs_keeps_dirs _ _ _ (mkdir_p_adds p w)). Qed.

Lemma os_makedirs_keeps_dirs p : steps keeps_dirs (os_makedirs p).
Proof. intros w. exact (adds_dirs_keeps_dirs _ _ _ (os_makedirs_adds p w)). Qed.

Lemma shutil_copyfile_keeps_dirs src dst : steps keeps_dirs (shutil_copyfile src dst).
Proof.
  intros w. destruct (shutil_copyfile src dst w) as [a w'|e w'] eqn:Hc.
  - apply shutil_copyfile_Ok in Hc as (data & _ & _ & Hnd & _ & ->).
    intros q b Hq. simpl. rewrite lookup_insert_ne; [done |].
    intros ->. by rewrite Hq in Hnd.
  - apply shutil_copyfile_Raise in Hc as ->. reflexivity.
Qed.

Lemma copytree_keeps_dirs depth src dst : steps keeps_dirs (copytree depth src dst).
Proof.
  revert src dst. induction depth as [|depth IH]; intros src dst;
    cbn [copytree]; [by intros w |].
  apply preserves_steps; [apply _ |]. intros w0.
  apply preserves_isdir. intros [|].
  - apply preserves_bind.
    + apply preserves_exists. intros b. apply preserves_when.
      apply steps_preserves; [apply _ | apply mkdir_p_keeps_dirs].
    + intros _. apply preserves_listdir. intros names.
      apply preserves_for_each. intros x _.
      apply steps_preserves; [apply _ | apply IH].
  - apply preserves_bind; [by intros w |]. intros _.
    apply steps_preserves; [apply _ | apply shutil_copyfile_keeps_dirs].
Qed.

(** ** Loops and reads *)

Lemma preserves_read (I : world → Prop) {A B} (f : world → A) (k : A → M B) :
  (∀ a, preserves I (k a)) → preserves I ((λ w, Ok (f w) w) ≫= k).
Proof. intros Hk w Hw. rewrite bind_unfold. by apply Hk. Qed.

Lemma preserves_with_path (I : world → Prop) {A} o (k : path → M A) :
  (∀ p, preserves I (k p)) → preserves I (with_path o k).
Proof. intros Hk. destruct o; [apply Hk | apply preserves_raise]. Qed.

(** One step of a proof that a compound statement keeps an invariant. *)
Ltac preserves_step :=
  lazymatch goal with
  | |- preserves _ (mret _) => apply preserves_ret
  | |- preserves _ (raise _) => apply preserves_raise
  | |- preserves _ (os_path_exists _ ≫= _) => apply preserves_exists; intros ?
  | |- preserves _ (os_path_isdir _ ≫= _) => apply preserves_isdir; intros ?
  | |- preserves _ (os_listdir _ ≫= _) => apply preserves_listdir; intros ?
  | |- preserves _ ((λ w, Ok _ w) ≫= _) => apply preserves_read; intros ?
  | |- preserves _ (when _ _) => apply preserves_when
  | |- preserves _ (except_errno _ _) => apply preserves_except_errno
  | |- preserves _ (for_each _ _) => apply preserves_for_each; intros ? ?
  | |- preserves _ (with_path _ _) => apply preserves_with_path; intros ?
  | |- preserves _ (_ ≫= _) => apply preserves_bind; [| intros ?]
  end.

(** A loop that completed ran its body on every element, in a world reached
    from the start and from which the end was reached. *)
Lemma for_each_Ok_elem {A} (R : relation world) `{!PreOrder R}
    (xs : list A) (body : A → M unit) w w' x :
  (∀ y, steps R (body y)) → for_each xs body w = Ok tt w' → x ∈ xs →
  ∃ w1 w2, R w w1 ∧ body x w1 = Ok tt w2 ∧ R w2 w'.
Proof.
  intros Hb. revert w. induction xs as [|y ys IH]; intros w Hfe Hx.
  { by apply elem_of_nil in Hx. }
  apply for_each_cons_Ok in Hfe as (w1 & Hy & Hfe).
  apply elem_of_cons in Hx as [-> | Hx].
  - exists w, w1. split_and!; [done | done |].
    revert Hfe. apply steps_Ok. apply preserves_steps; [apply _ |]. intros w0.
    apply preserves_for_each. intros z _. by apply steps_preserves; [apply _ |].
  - destruct (IH w1 Hfe Hx) as (v1 & v2 & H1 & Hbody & H2).
    exists v1, v2. split_and!; [| done | done].
    etrans; [| exact H1]. by eapply steps_Ok.
Qed.

(** ** Paths of the script *)

Lemma related_app (dst r q : path) : related (dst ++ r) q → related dst q.
Proof.
  intros [H | H].
  - destruct (prefix_weak_total q dst (dst ++ r)); [done | by apply prefix_app_r | |];
      [by left | by right].
  - right. by eapply prefix_app_l.
Qed.

(** Two paths that part below a common directory are not related. *)
Lemma parted_not_related (base : path) x a y b :
  x ≠ y → ¬ related (base ++ x :: a) (base ++ y :: b).
Proof.
  intros Hxy [H | H]; apply prefix_app_inv, prefix_cons_inv_1 in H; congruence.
Qed.

(** ** The output directory: lines 60-65 *)

Lemma clean_output_unfold args w :
  clean_output args w =
  if bool_decide (is_Some (fs w !! output_path args))
  then shutil_rmtree (output_path args) w else Ok tt w.
Proof.
  unfold clean_output. rewrite bind_unfold. simpl.
  by destruct (bool_decide _).
Qed.

Lemma clean_output_same_outside args :
  steps (same_outside (λ q, output_path args `prefix_of` q)) (clean_output args).
Proof.
  apply preserves_steps; [apply _ |]. intros w0.
  unfold clean_output. repeat preserves_step.
  apply steps_preserves; [apply _ | apply shutil_rmtree_same_outside].
Qed.

Lemma clean_output_stdout args : steps same_stdout (clean_output args).
Proof.
  apply preserves_steps; [apply _ |]. intros w0.
  unfold clean_output. repeat preserves_step.
  apply steps_preserves; [apply _ | apply shutil_rmtree_stdout].
Qed.

(** After the cleaning step nothing is left at or below the output path,
    whatever [--clean] says. *)
Lemma clean_output_gone args w w1 q :
  wf (fs w) → clean_output args w = Ok tt w1 →
  output_path args `prefix_of` q → fs w1 !! q = None.
Proof.
  intros Hwf. rewrite clean_output_unfold. case_bool_decide as Hex.
  - intros Hr Hq. by eapply shutil_rmtree_gone.
  - intros [= <-] Hq. destruct (fs w !! q) eqn:Hl; [| done].
    destruct Hex. eapply wf_prefix; [done | exact Hq | eauto].
Qed.

Lemma ensure_output_adds args :
  steps (adds_dirs (λ q, q `prefix_of` output_path args)) (ensure_output args).
Proof.
  apply preserves_steps; [apply _ |]. intros w0.
  unfold ensure_output. repeat preserves_step.
  apply steps_preserves; [apply _ | apply os_makedirs_adds].
Qed.

Lemma ensure_output_stdout args : steps same_stdout (ensure_output args).
Proof.
  apply preserves_steps; [apply _ |]. intros w0.
  unfold ensure_output. repeat preserves_step.
  apply steps_preserves; [apply _ | apply makedirs_rev_stdout].
Qed.

(** The output directory as [ensure_output] leaves it after a cleaning step:
    a fresh, empty, writable directory. *)
Lemma ensure_output_fresh args w1 w2 :
  args_build args ≠ "none" →
  (∀ q, output_path args `prefix_of` q → fs w1 !! q = None) →
  ensure_output args w1 = Ok tt w2 →
  os_makedirs (output_path args) w1 = Ok tt w2 ∧
  fs w2 !! output_path args = Some (Dir true) ∧
  ∀ q, output_path args `prefix_of` q → q ≠ output_path args → fs w2 !! q = None.
Proof.
  intros Hb Hgone He.
  pose proof (steps_Ok _ _ _ _ _ (ensure_output_adds args) He) as Hadd.
  unfold ensure_output in He. rewrite bind_unfold in He. simpl in He.
  rewrite bool_decide_eq_false_2 in He.
  2:{ rewrite Hgone; [by intros [? [=]] | done]. }
  apply String.eqb_neq in Hb. rewrite Hb in He. simpl in He.
  split_and!; [done | |].
  - pose proof (os_makedirs_result (output_path args) w1) as Hr.
    by rewrite He in Hr.
  - intros q Hq Hne. destruct (Hadd q) as [-> | (Hpre & _)]; [by apply Hgone |].
    destruct Hne. by apply (anti_symm prefix).
Qed.

(** ** What each statement may touch *)

Lemma mkdir_p_related p : steps (same_outside (related p)) (mkdir_p p).
Proof.
  eapply steps_mono; [| apply mkdir_p_adds]. intros w w' H.
  apply adds_dirs_same_outside in H. revert H.
  apply same_outside_mono. intros q Hq. by left.
Qed.

Lemma os_makedirs_related p : steps (same_outside (related p)) (os_makedirs p).
Proof.
  eapply steps_mono; [| apply os_makedirs_adds]. intros w w' H.
  apply adds_dirs_same_outside in H. revert H.
  apply same_outside_mono. intros q Hq. by left.
Qed.

(** Closes a goal [preserves (same_outside (related p) w0) m] for a statement
    [m] that works at or below [p]. *)
Ltac related_leaf lem :=
  apply steps_preserves; [apply _ |];
  eapply steps_mono; [| apply lem];
  let H := fresh in
  intros ? ?; apply same_outside_mono; intros ? H;
  repeat first [exact H | apply related_app in H].

Lemma copy_assets_same_outside args :
  steps (same_outside (related (output_path args))) (copy_assets args).
Proof.
  apply preserves_steps; [apply _ |]. intros w0. unfold copy_assets.
  destruct (String.eqb _ "full"); [| destruct (String.eqb _ "layout")].
  - unfold build_full, scaffold_collections, scaffold_collection.
    repeat preserves_step;
      first [related_leaf copytree_same_outside | related_leaf mkdir_p_related].
  - unfold build_layout.
    repeat preserves_step;
      first [related_leaf copytree_same_outside | related_leaf os_makedirs_related].
  - apply preserves_ret.
Qed.

Lemma collect_assets_same_outside args :
  steps (same_outside (related (output_path args))) (collect_assets args).
Proof.
  apply preserves_steps; [apply _ |]. intros w0. unfold collect_assets.
  repeat preserves_step.
  - apply steps_preserves; [apply _ |].
    eapply steps_mono; [| apply clean_output_same_outside]. intros w w'.
    apply same_outside_mono. intros q Hq. by right.
  - apply steps_preserves; [apply _ |].
    eapply steps_mono; [| apply ensure_output_adds]. intros w w' H.
    apply adds_dirs_same_outside in H. revert H.
    apply same_outside_mono. intros q Hq. by left.
  - apply steps_preserves; [apply _ | apply copy_assets_same_outside].
Qed.

Lemma copy_assets_keeps_dirs args : steps keeps_dirs (copy_assets args).
Proof.
  apply preserves_steps; [apply _ |]. intros w0. unfold copy_assets.
  destruct (String.eqb _ "full"); [| destruct (String.eqb _ "layout")].
  - unfold build_full, scaffold_collections, scaffold_collection.
    repeat preserves_step; (apply steps_preserves; [apply _ |]);
      first [apply copytree_keeps_dirs | apply mkdir_p_keeps_dirs].
  - unfold build_layout.
    repeat preserves_step; (apply steps_preserves; [apply _ |]);
      first [apply copytree_keeps_dirs | apply os_makedirs_keeps_dirs].
  - apply preserves_ret.
Qed.

(** ** The directory ensurer *)

(** C2, as amended.  [mkdir_p] succeeds without touching the filesystem
    whenever the path already exists, as a directory or as anything else
    (the [EEXIST] of [os.makedirs] is swallowed); every other failure of
    [os.makedirs] is raised to the caller, in particular [ENOTDIR] when a
    component before the last is a regular file and [EACCES] when the
    directory in which the first missing component has to be made is not
    writable. *)
Theorem mkdir_p_errors p w :
  wf (fs w) →
  let w0 := printed ("CREATE: " +:+ render p) w in
  (is_Some (fs w !! p) → mkdir_p p w = Ok tt w0) ∧
  (∀ e w', os_makedirs p w0 = Raise e w' → e ≠ OSError EEXIST →
           mkdir_p p w = Raise e w') ∧
  (∀ q x r data, p = q ++ x :: r → fs w !! q = Some (File data) →
                 mkdir_p p w = Raise (OSError ENOTDIR) w0) ∧
  (∀ q x r, p = q ++ x :: r → fs w !! q = Some (Dir false) →
            fs w !! (q ++ [x]) = None →
            mkdir_p p w = Raise (OSError EACCES) w0).
Proof.
  intros Hwf w0. split_and!.
  - by apply mkdir_p_exists.
  - intros e w' Hm He. rewrite mkdir_p_unfold. by apply except_errno_Raise.
  - intros q x r data -> Hq. rewrite mkdir_p_unfold.
    apply except_errno_Raise. split; [| done].
    eapply os_makedirs_blocked; [done | done | by simpl; eauto | |].
    + simpl. destruct (fs w !! (q ++ [x])) eqn:Hx; [| done].
      assert (is_dir (fs w !! q)) as Hd by (eapply (proj2 Hwf); eauto).
      by rewrite Hq in Hd.
    + unfold may_create. rewrite dirname_snoc.
      assert (stat (fs w0) q = inr (File data)) as -> by by apply stat_inr.
      done.
  - intros q x r -> Hq Hx. rewrite mkdir_p_unfold.
    apply except_errno_Raise. split; [| done].
    eapply os_makedirs_blocked; [done | done | by simpl; eauto | done |].
    unfold may_create. rewrite dirname_snoc.
    assert (stat (fs w0) q = inr (Dir false)) as -> by by apply stat_inr.
    done.
Qed.

(** C6.  [mkdir_p] prints its [CREATE] line on every call, whether the call
    completes or raises and whether or not the path exists.  After a call
    that completed the path is there (a new directory if it was missing), and
    a second call completes as well, changes nothing in the filesystem and
    prints the line again. *)
Theorem mkdir_p_idempotent p w :
  let line := "CREATE: " +:+ render p in
  stdout (final (mkdir_p p w)) = stdout w ++ [line] ∧
  (wf (fs w) → ∀ w1, mkdir_p p w = Ok tt w1 →
     fs w1 !! p = match fs w !! p with
                  | Some n => Some n
                  | None => Some (Dir true)
                  end ∧
     mkdir_p p w1 = Ok tt (printed line w1)).
Proof.
  intros line. split; [apply mkdir_p_stdout |].
  intros Hwf w1 Hm. pose proof (mkdir_p_Ok_result _ _ _ Hm) as Hres.
  split; [done |]. apply mkdir_p_exists.
  - eapply (preserves_Ok _ _ _ _ _ (mkdir_p_wf _ p)); [| exact Hm].
    by apply wf_world_init.
  - rewrite Hres. by destruct (fs w !! p); eauto.
Qed.

(** ** The record of filesystem states *)

#[local] Instance records_preorder : PreOrder records.
Proof.
  split.
  - intros w. exists []. by rewrite app_nil_r.
  - intros w1 w2 w3 (n1 & Hh1 & Hf1) (n2 & Hh2 & Hf2). exists (n1 ++ n2).
    split; [by rewrite Hh2, Hh1, app_assoc |].
    rewrite Hf2, Hf1, last_app. by destruct (last n2).
Qed.

Lemma os_mkdir_records p : steps records (os_mkdir p).
Proof.
  intros w. destruct (os_mkdir p w) as [a w'|e w'] eqn:Hm.
  - apply os_mkdir_Ok in Hm as (_ & _ & ->). by eexists [_].
  - apply os_mkdir_Raise in Hm as [-> _]. reflexivity.
Qed.

Lemma os_makedirs_records p : steps records (os_makedirs p).
Proof.
  unfold os_makedirs. induction (rev p) as [|t rh IH]; simpl;
    [apply os_mkdir_records |].
  apply preserves_steps; [apply _ |]. intros w0. repeat preserves_step.
  - by apply steps_preserves; [apply _ |].
  - apply steps_preserves; [apply _ | apply os_mkdir_records].
Qed.

Lemma mkdir_p_records p : steps records (mkdir_p p).
Proof.
  intros w. rewrite mkdir_p_unfold, final_except_errno.
  apply (os_makedirs_records p (printed _ w)).
Qed.

Lemma shutil_copyfile_records src dst : steps records (shutil_copyfile src dst).
Proof.
  intros w. destruct (shutil_copyfile src dst w) as [a w'|e w'] eqn:Hc.
  - apply shutil_copyfile_Ok in Hc as (data & _ & _ & _ & _ & ->). by eexists [_].
  - apply shutil_copyfile_Raise in Hc as ->. reflexivity.
Qed.

Lemma copytree_records depth src dst : steps records (copytree depth src dst).
Proof.
  revert src dst. induction depth as [|depth IH]; intros src dst;
    cbn [copytree]; [by intros w |].
  apply preserves_steps; [apply _ |]. intros w0.
  preserves_step. destruct b; repeat preserves_step.
  - apply steps_preserves; [apply _ | apply mkdir_p_records].
  - apply steps_preserves; [apply _ | apply IH].
  - by intros w.
  - apply steps_preserves; [apply _ | apply shutil_copyfile_records].
Qed.

Lemma wf_ancestor m q a :
  wf m → is_Some (m !! q) → a `prefix_of` q → a ≠ q → is_dir (m !! a).
Proof.
  intros Hwf Hq [r ->] Hne. eapply wf_below; [done | | done].
  intros ->. by rewrite app_nil_r in Hne.
Qed.

(** ** The recursive copier *)

(** C3, as amended.  When neither of [src] and [dst] is the other or lies
    below it, a call [copytree(src, dst)] that completes leaves the source
    tree as it was and every regular file of it has its counterpart below
    [dst]: same relative path, same bytes. *)
Theorem copytree_structure_preserving depth src dst w w' :
  wf (fs w) → apart src dst → copytree depth src dst w = Ok tt w' →
  (∀ rel, fs w' !! (src ++ rel) = fs w !! (src ++ rel)) ∧
  (∀ rel data, fs w !! (src ++ rel) = Some (File data) →
               fs w' !! (dst ++ rel) = Some (File data)).
Proof.
  intros Hwf Hap Hc. split.
  - intros rel. apply (steps_Ok _ _ _ _ _ (copytree_same_outside _ _ _) Hc).
    by apply apart_not_related.
  - eapply copytree_copies; [by apply wf_world_init | done | done].
Qed.

(** C8.  Whatever [copytree] does and however it ends, every state the
    filesystem goes through during the call is recorded, and in each of them
    whatever exists has all the directories above it: no file is ever placed
    before the directories that lead to it. *)
Theorem copytree_parents_first depth src dst w :
  wf (fs w) →
  let w' := final (copytree depth src dst w) in
  ∃ new, hist w' = hist w ++ new ∧ fs w' = default (fs w) (last new) ∧
         ∀ m, m ∈ new → ∀ q a, is_Some (m !! q) →
                        a `prefix_of` q → a ≠ q → is_dir (m !! a).
Proof.
  intros Hwf w'. destruct (copytree_records depth src dst w) as (new & Hh & Hf).
  exists new. split_and!; [done | done |].
  pose proof (copytree_wf _ depth src dst w (wf_world_init w Hwf)) as [_ Hall].
  rewrite Hh, drop_app_length in Hall.
  intros m Hm q a Hq Ha Hne. rewrite Forall_forall in Hall.
  by eapply wf_ancestor; [apply Hall | ..].
Qed.

(** ** The command line and the build profile *)

Lemma substring_all s : String.substring 0 (String.length s) s = s.
Proof. induction s as [|c s IH]; simpl; [done | by rewrite IH]. Qed.

Lemma explicit_arg_build v : explicit_arg "--build" ("--build=" +:+ v) = Some v.
Proof.
  unfold explicit_arg. simpl. unfold String.append. simpl.
  rewrite Nat.sub_0_r, substring_all. by destruct v.
Qed.

Lemma os_choice_cases os :
  os ∈ os_choices → os = "windows" ∨ os = "linux" ∨ os = "mac".
Proof.
  unfold os_choices. rewrite !elem_of_cons, elem_of_nil. tauto.
Qed.

Lemma wants_executable_cases args :
  wants_executable args = true →
  args_build args = "full" ∨ args_build args = "core" ∨ args_build args = "engine".
Proof.
  unfold wants_executable. rewrite !orb_true_iff, !String.eqb_eq. tauto.
Qed.

Lemma bind_ret_unit (m : M unit) w : (m ;; mret tt) w = m w.
Proof. rewrite bind_unfold. by destruct (m w) as [[] ?|]. Qed.

(** C10.  [--build] is not checked against the five profiles.  For a value
    that is none of them the arguments parse (as [--build=VALUE], and as
    [--build VALUE] unless the value reads as an option), and the run is the
    run of [--build none] followed by the creation of the output directory
    if it is not there: the cleaning step and nothing else, no asset and no
    executable is copied. *)
Theorem unknown_build_only_creates_output os build clean :
  os ∈ os_choices →
  build ∉ ["full"; "core"; "engine"; "layout"; "none"] →
  parse_args ["--os"; os; "--build=" +:+ build] = Some (Args os build false) ∧
  (looks_like_option build = false →
   parse_args ["--os"; os; "--build"; build] = Some (Args os build false)) ∧
  ∀ w,
    package (Args os "none" clean) w = clean_output (Args os "none" clean) w ∧
    package (Args os build clean) w =
    (package (Args os "none" clean) ;;
     e ← os_path_exists (output_path (Args os build clean));
     when (negb e) (os_makedirs (output_path (Args os build clean)))) w.
Proof.
  intros Hos Hb.
  assert (String.eqb build "full" = false ∧ String.eqb build "core" = false ∧
          String.eqb build "engine" = false ∧ String.eqb build "layout" = false ∧
          String.eqb build "none" = false) as (Hf & Hc & He & Hl & Hn).
  { rewrite !String.eqb_neq.
    split_and!; intros ->; apply Hb; rewrite !elem_of_cons; tauto. }
  split_and!.
  - unfold parse_args. cbn [parse_optionals].
    apply os_choice_cases in Hos as [-> | [-> | ->]];
      by rewrite ?explicit_arg_build.
  - intros Hopt. unfold parse_args. cbn [parse_optionals].
    apply os_choice_cases in Hos as [-> | [-> | ->]]; simpl; by rewrite Hopt.
  - intros w.
    assert (Hnone : package (Args os "none" clean) w
                    = clean_output (Args os "none" clean) w).
    { unfold package, collect_assets, ensure_output, copy_assets,
        place_executable, wants_executable. simpl.
      rewrite !bind_unfold. simpl.
      destruct (clean_output (Args os "none" clean) w) as [[] w1|]; [| done].
      by destruct (String.eqb os "windows"), (String.eqb os "linux"),
        (String.eqb os "mac"). }
    split; [done |].
    rewrite (bind_unfold (package _)), Hnone.
    unfold package, collect_assets, ensure_output, copy_assets,
      place_executable, wants_executable. simpl.
    rewrite Hf, Hc, He, Hl, Hn. rewrite !bind_unfold. simpl.
    change (clean_output (Args os build clean)) with
      (clean_output (Args os "none" clean)).
    destruct (clean_output (Args os "none" clean) w) as [[] w1|]; [| done].
    simpl. rewrite bind_ret_unit.
    match goal with |- _ = ?m w1 => destruct (m w1) as [[] w2|]; [| done] end.
    by destruct (String.eqb os "windows"), (String.eqb os "linux"),
      (String.eqb os "mac").
Qed.

(** ** Placing the executable *)

Lemma shutil_copyfile_missing src dst w :
  fs w !! src = None → ∃ e, shutil_copyfile src dst w = Raise (OSError e) w.
Proof.
  intros Hs. unfold shutil_copyfile.
  rewrite (bool_decide_eq_false_2 (is_Some _)); [| rewrite Hs; by intros [? [=]]].
  rewrite andb_false_r. unfold stat. rewrite Hs.
  destruct (existsb _ _); eauto.
Qed.

Lemma shutil_copy_missing src dst w :
  fs w !! src = None → ∃ e, shutil_copy src dst w = Raise (OSError e) w.
Proof.
  intros Hs. unfold shutil_copy. rewrite bind_unfold. simpl.
  destruct (is_dir _); by apply shutil_copyfile_missing.
Qed.

(** What the asset stage leaves outside the output tree is what it found. *)
Lemma collect_assets_elsewhere args w w1 x rest :
  collect_assets args w = Ok tt w1 → x ≠ "Artifacts" →
  fs w1 !! (base_path ++ x :: rest) = fs w !! (base_path ++ x :: rest).
Proof.
  intros Hc Hx. apply (steps_Ok _ _ _ _ _ (collect_assets_same_outside args) Hc).
  unfold output_path. by apply parted_not_related.
Qed.

Lemma package_unfold args w :
  package args w = match collect_assets args w with
                   | Ok _ w1 => place_executable args w1
                   | Raise e w1 => Raise e w1
                   end.
Proof. reflexivity. Qed.

(** C9.  On windows and on linux, with a profile that wants the executable,
    a run that finds no file at the fixed path of the compiled executable
    does not complete: if it gets as far as the placement, the placement
    raises, nothing catches the exception, and the exit status is 1. *)
Theorem missing_executable_is_fatal args w :
  wants_executable args = true →
  (args_os args = "windows" ∧
   fs w !! (base_path ++ ["RetroFE"; "Build"; "Release"; "retrofe.exe"]) = None)
  ∨ (args_os args = "linux" ∧
     fs w !! (base_path ++ ["RetroFE"; "Build"; "retrofe"]) = None) →
  (∀ w1, collect_assets args w = Ok tt w1 →
         ∃ e w', place_executable args w1 = Raise e w' ∧
                 package args w = Raise e w') ∧
  exit_status (package args w) = 1 ∧
  (∀ argv, parse_args argv = Some args → (main argv w).1 = 1).
Proof.
  intros Hwant Hmiss.
  assert (Hplace : ∀ w1, collect_assets args w = Ok tt w1 →
            ∃ e w', place_executable args w1 = Raise e w').
  { intros w1 Hc. unfold place_executable. rewrite Hwant. simpl.
    destruct Hmiss as [[Hos Hexe] | [Hos Hexe]]; rewrite Hos; simpl.
    - rewrite <- (collect_assets_elsewhere _ _ _ _ _ Hc) in Hexe by done.
      unfold place_windows. rewrite bind_unfold.
      set (mk := os_path_exists (output_path args ++ ["retrofe"]) ≫= _).
      assert (Hst : steps (same_outside (related (output_path args))) mk).
      { apply preserves_steps; [apply _ |]. intros w0. unfold mk.
        repeat preserves_step. related_leaf os_makedirs_related. }
      destruct (mk w1) as [[] w2|e w2] eqn:Hmk; [| by eauto].
      assert (fs w2 !! (base_path ++ ["RetroFE"; "Build"; "Release"; "retrofe.exe"])
              = None) as Hexe2.
      { rewrite <- Hexe. apply (steps_Ok _ _ _ _ _ Hst Hmk).
        unfold output_path. by apply parted_not_related. }
      destruct (shutil_copy_missing _ (output_path args ++ ["retrofe"]) _ Hexe2)
        as [e He]. eauto.
    - rewrite <- (collect_assets_elsewhere _ _ _ _ _ Hc) in Hexe by done.
      unfold place_linux.
      destruct (shutil_copy_missing _ (output_path args) _ Hexe) as [e He]. eauto. }
  assert (Hpkg : ∃ e w', package args w = Raise e w').
  { rewrite package_unfold.
    destruct (collect_assets args w) as [[] w1|e w1] eqn:Hc; [| by eauto].
    by apply Hplace. }
  split_and!.
  - intros w1 Hc. destruct (Hplace w1 Hc) as (e & w' & Hp).
    exists e, w'. split; [done |]. by rewrite package_unfold, Hc.
  - destruct Hpkg as (e & w' & ->). done.
  - intros argv Hargv. unfold main. rewrite Hargv.
    destruct Hpkg as (e & w' & ->). done.
Qed.

(** C5.  On mac, with a profile that wants the executable, when neither
    [RetroFE.app] nor [retrofe] is in the Release directory and the run gets
    as far as the placement, the placement prints the error line and
    completes: the run ends with status 0, the output directory is there and
    the placement has put nothing in it. *)
Theorem mac_missing_executable args w w1 :
  wf (fs w) → args_os args = "mac" → wants_executable args = true →
  fs w !! (base_path ++ ["RetroFE"; "Build"; "Release"; "RetroFE.app"]) = None →
  fs w !! (base_path ++ ["RetroFE"; "Build"; "Release"; "retrofe"]) = None →
  collect_assets args w = Ok tt w1 →
  let w' :=
    printed "Error: Neither RetroFE.app nor retrofe binary found in Release folder."
            w1 in
  place_executable args w1 = Ok tt w' ∧
  package args w = Ok tt w' ∧
  exit_status (package args w) = 0 ∧
  (∀ argv, parse_args argv = Some args → main argv w = (0, w')) ∧
  fs w' = fs w1 ∧
  fs w' !! output_path args = Some (Dir true).
Proof.
  intros Hwf Hos Hwant Happ Hexe Hc w'.
  rewrite <- (collect_assets_elsewhere _ _ _ _ _ Hc) in Happ by done.
  rewrite <- (collect_assets_elsewhere _ _ _ _ _ Hc) in Hexe by done.
  assert (Hplace : place_executable args w1 = Ok tt w').
  { unfold place_executable. rewrite Hwant, Hos. simpl.
    unfold place_mac. rewrite bind_unfold. simpl.
    rewrite <- !app_assoc. simpl. rewrite Happ. simpl.
    rewrite bind_unfold. simpl. by rewrite Hexe. }
  assert (Hpkg : package args w = Ok tt w') by by rewrite package_unfold, Hc.
  split_and!; try done.
  - by rewrite Hpkg.
  - intros argv Hargv. unfold main. by rewrite Hargv, Hpkg.
  - simpl. apply bind_Ok in Hc as ([] & wa & Hclean & Hc).
    apply bind_Ok in Hc as ([] & wb & Hens & Hc).
    apply (steps_Ok _ _ _ _ _ (copy_assets_keeps_dirs args) Hc).
    eapply ensure_output_fresh; [| | exact Hens].
    + apply wants_executable_cases in Hwant. intros E. rewrite E in Hwant.
      by destruct Hwant as [|[|]].
    + intros q Hq. by eapply clean_output_gone.
Qed.

(** ** Scaffolding the collections *)

Lemma scaffold_collection_adds args c :
  steps (adds_dirs (scaffold_target (output_path args))) (scaffold_collection args c).
Proof.
  unfold scaffold_collection.
  destruct (String.prefix "_" c) eqn:Hc; cbn [when negb]; [by intros w |].
  apply preserves_steps; [apply _ |]. intros w0.
  apply preserves_for_each. intros s Hs.
  apply steps_preserves; [apply _ |].
  eapply steps_mono; [| apply mkdir_p_adds]. intros w w'.
  apply adds_dirs_mono. intros q Hq. by exists c, s.
Qed.

Lemma scaffold_collections_adds args :
  steps (adds_dirs (scaffold_target (output_path args))) (scaffold_collections args).
Proof.
  apply preserves_steps; [apply _ |]. intros w0.
  unfold scaffold_collections. repeat preserves_step.
  apply steps_preserves; [apply _ | apply scaffold_collection_adds].
Qed.

(** C4, as amended.  The scaffolding lists the directories found in
    [output/collections].  For one whose name does not start with [_], each
    of the five paths [roms], [medium_artwork], [medium_artwork/logo],
    [medium_artwork/video] and [system_artwork] below it exists afterwards:
    what was already there is left as it was, what was missing is a new
    directory.  Below one whose name starts with [_] nothing is created or
    changed. *)
Theorem scaffold_collections_spec args w w' :
  scaffold_collections args w = Ok tt w' →
  ∀ d, is_dir (fs w !! (output_path args ++ ["collections"; d])) →
    let collection_base := output_path args ++ ["collections"; d] in
    if String.prefix "_" d
    then ∀ rel, fs w' !! (collection_base ++ rel) = fs w !! (collection_base ++ rel)
    else ∀ s, s ∈ dirs_to_create →
              fs w' !! (collection_base ++ s) =
              match fs w !! (collection_base ++ s) with
              | Some n => Some n
              | None => Some (Dir true)
              end.
Proof.
  intros Hsc d Hd cb.
  pose proof (steps_Ok _ _ _ _ _ (scaffold_collections_adds args) Hsc) as Hadd.
  destruct (String.prefix "_" d) eqn:Hpre.
  - intros rel. destruct (Hadd (cb ++ rel)) as [? | (Ht & _)]; [done |].
    destruct Ht as (c & s & Hc & _ & Hq). unfold cb in Hq.
    rewrite <- !app_assoc in Hq.
    apply prefix_app_inv, prefix_cons_inv_2, prefix_cons_inv_1 in Hq.
    congruence.
  - intros s Hs. apply (adds_dirs_after _ _ _ _ Hadd).
    unfold scaffold_collections in Hsc.
    apply bind_Ok in Hsc as (names & w1 & Hl & Hsc).
    apply os_listdir_Ok in Hl as (-> & _ & ->).
    apply bind_Ok in Hsc as (dirs & w1 & Hr & Hloop). injection Hr as <- <-.
    eapply (for_each_Ok_elem (adds_dirs (scaffold_target (output_path args))))
      in Hloop as (v1 & v2 & _ & Hbody & Hend).
    2:{ intros c. apply scaffold_collection_adds. }
    2:{ apply list_elem_of_filter. split.
        - rewrite <- app_assoc. exact Hd.
        - apply elem_of_listdir. rewrite <- app_assoc. by apply is_dir_Some. }
    unfold scaffold_collection in Hbody. rewrite Hpre in Hbody.
    cbn [when negb] in Hbody.
    eapply (for_each_Ok_elem (adds_dirs (λ _, True)))
      in Hbody as (u1 & u2 & _ & Hmk & Hu); [| | exact Hs].
    2:{ intros p. eapply steps_mono; [| apply mkdir_p_adds]. intros u u'.
        by apply adds_dirs_mono. }
    apply mkdir_p_Ok_result in Hmk.
    assert (∃ n, fs u2 !! (cb ++ s) = Some n) as [n Hn].
    { unfold cb. rewrite Hmk. destruct (fs u1 !! _); eauto. }
    exists n. eapply adds_dirs_keeps; [exact Hend |].
    eapply adds_dirs_keeps; [exact Hu | exact Hn].
Qed.

(** ** The layout profile *)

Lemma snoc_ne (p : path) x : p ++ [x] ≠ p.
Proof. intros E. apply (prefix_snoc_not p x). by rewrite E. Qed.

Lemma os_makedirs_child p x w :
  fs w !! p = Some (Dir true) → fs w !! (p ++ [x]) = None →
  os_makedirs (p ++ [x]) w =
  Ok tt (World (<[p ++ [x] := Dir true]> (fs w)) (stdout w)
               (hist w ++ [<[p ++ [x] := Dir true]> (fs w)])).
Proof.
  intros Hp Hx. unfold os_makedirs. rewrite rev_unit. cbn [makedirs_rev].
  rewrite !bind_unfold. simpl. rewrite rev_involutive.
  rewrite bool_decide_eq_true_2 by eauto. simpl.
  apply os_mkdir_Ok. by rewrite dirname_snoc.
Qed.

Lemma os_path_cases args :
  args_os args ∈ os_choices →
  ∃ x, os_path args = Some (base_path ++ ["Package"; "Environment"; x]).
Proof.
  intros H. unfold os_path.
  apply os_choice_cases in H as [-> | [-> | ->]]; simpl; eauto.
Qed.

Lemma exists_elsewhere {A} out p (k : bool → M A) w v :
  same_outside (related out) w v → ¬ related out p →
  (os_path_exists p ≫= k) v = k (bool_decide (is_Some (fs w !! p))) v.
Proof. intros Hs Hp. rewrite bind_unfold. simpl. by rewrite Hs. Qed.

Lemma package_without_executable args w :
  wants_executable args = false → package args w = collect_assets args w.
Proof.
  intros Hw. rewrite package_unfold. unfold place_executable. rewrite Hw.
  destruct (collect_assets args w) as [[] w1|]; [| done].
  by destruct (String.eqb (args_os args) "windows"),
    (String.eqb (args_os args) "linux"), (String.eqb (args_os args) "mac").
Qed.

(** C7.  In the layout profile, for every choice of [--os], once the output
    directory is in place the run is: make [output/layouts], copy the common
    [layouts] if the checkout has one, copy the OS-specific [layouts] if the
    checkout has one.  A missing source is not touched and raises nothing.
    With both missing the run completes with status 0, prints nothing, and
    the output tree is the output directory and an empty [layouts] in it. *)
Theorem layout_profile_skips_missing_layouts args w wa wb :
  wf (fs w) → args_os args ∈ os_choices → args_build args = "layout" →
  clean_output args w = Ok tt wa → ensure_output args wa = Ok tt wb →
  ∃ os_dir, os_path args = Some os_dir ∧
    let dest := output_path args ++ ["layouts"] in
    let copy_if_found src :=
      when (bool_decide (is_Some (fs w !! src)))
           (copytree recursion_limit src dest) in
    package args w =
      (os_makedirs dest ;;
       copy_if_found (common_path ++ ["layouts"]) ;;
       copy_if_found (os_dir ++ ["layouts"])) wb ∧
    (fs w !! (common_path ++ ["layouts"]) = None →
     fs w !! (os_dir ++ ["layouts"]) = None →
     ∃ w', package args w = Ok tt w' ∧
           exit_status (package args w) = 0 ∧
           stdout w' = stdout w ∧
           ∀ q, output_path args `prefix_of` q →
                fs w' !! q =
                if bool_decide (q = output_path args ∨ q = dest)
                then Some (Dir true) else None).
Proof.
  intros Hwf Hos Hbuild Hclean Hens.
  destruct (os_path_cases args Hos) as [x Hop].
  exists (base_path ++ ["Package"; "Environment"; x]). split; [done |].
  intros dest copy_if_found.
  set (out := output_path args) in *.
  assert (Hwb : same_outside (related out) w wb).
  { etrans.
    - eapply same_outside_mono;
        [| exact (steps_Ok _ _ _ _ _ (clean_output_same_outside args) Hclean)].
      intros q Hq. by right.
    - eapply same_outside_mono;
        [| exact (adds_dirs_same_outside _ _ _
                    (steps_Ok _ _ _ _ _ (ensure_output_adds args) Hens))].
      intros q Hq. by left. }
  destruct (ensure_output_fresh args wa wb) as (_ & Hout & Hempty); try done.
  { by rewrite Hbuild. }
  { intros q Hq. by eapply clean_output_gone. }
  assert (Hcl : ¬ related out (common_path ++ ["layouts"])).
  { unfold out, output_path, common_path. rewrite <- app_assoc.
    by apply parted_not_related. }
  assert (Hol : ¬ related out ((base_path ++ ["Package"; "Environment"; x])
                               ++ ["layouts"])).
  { unfold out, output_path. rewrite <- app_assoc. by apply parted_not_related. }
  assert (Hcopy : ∀ src, steps (same_outside (related out)) (copy_if_found src)).
  { intros src. apply preserves_steps; [apply _ |]. intros w0.
    unfold copy_if_found. preserves_step. related_leaf copytree_same_outside. }
  assert (Hpkg : package args w =
    (os_makedirs dest ;;
       copy_if_found (common_path ++ ["layouts"]) ;;
       copy_if_found ((base_path ++ ["Package"; "Environment"; x]) ++ ["layouts"]))
      wb).
  { rewrite package_without_executable
      by (unfold wants_executable; by rewrite Hbuild).
    unfold collect_assets. rewrite bind_unfold, Hclean, bind_unfold, Hens.
    unfold copy_assets, build_layout. rewrite Hbuild, Hop. simpl.
    fold out. fold dest.
    rewrite (bind_unfold (os_path_exists dest ≫= _)).
    rewrite (bind_unfold (os_makedirs dest)).
    assert ((os_path_exists dest ≫= λ e, when (negb e) (os_makedirs dest)) wb
            = os_makedirs dest wb) as ->.
    { rewrite bind_unfold. simpl. rewrite bool_decide_eq_false_2; [done |].
      rewrite Hempty; [by intros [? [=]] | by apply prefix_app_r |].
      apply snoc_ne. }
    destruct (os_makedirs dest wb) as [[] wc|] eqn:Hmk; [| done].
    assert (Hwc : same_outside (related out) w wc).
    { etrans; [exact Hwb |].
      eapply same_outside_mono;
        [| exact (steps_Ok _ _ _ _ _ (os_makedirs_related dest) Hmk)].
      intros q. apply related_app. }
    rewrite (bind_unfold (os_path_exists (common_path ++ ["layouts"]) ≫= _)).
    rewrite (bind_unfold (copy_if_found (common_path ++ ["layouts"]))).
    rewrite (exists_elsewhere out _ _ w wc Hwc Hcl).
    fold (copy_if_found (common_path ++ ["layouts"])).
    destruct (copy_if_found (common_path ++ ["layouts"]) wc) as [[] wd|] eqn:Hcp;
      [| done].
    assert (Hwd : same_outside (related out) w wd).
    { etrans; [exact Hwc |]. exact (steps_Ok _ _ _ _ _ (Hcopy _) Hcp). }
    by rewrite (exists_elsewhere out _ _ w wd Hwd Hol). }
  split; [exact Hpkg |].
  intros Hc Ho.
  assert (Hw' : package args w =
    Ok tt (World (<[dest := Dir true]> (fs wb)) (stdout wb)
                 (hist wb ++ [<[dest := Dir true]> (fs wb)]))).
  { rewrite Hpkg. unfold copy_if_found. rewrite Hc, Ho.
    rewrite !bool_decide_eq_false_2 by (by intros [? [=]]).
    rewrite bind_unfold. unfold dest.
    rewrite (os_makedirs_child out "layouts" wb); [done | done |].
    apply Hempty; [by apply prefix_app_r |].
    apply snoc_ne. }
  eexists. split_and!; [exact Hw' | by rewrite Hw' | |].
  - simpl. rewrite (steps_Ok _ _ _ _ _ (ensure_output_stdout args) Hens).
    exact (steps_Ok _ _ _ _ _ (clean_output_stdout args) Hclean).
  - intros q Hq. simpl. destruct (decide (q = dest)) as [-> | Hqd].
    + rewrite lookup_insert_eq. by rewrite bool_decide_eq_true_2 by by right.
    + rewrite lookup_insert_ne by done.
      destruct (decide (q = out)) as [-> | Hqo].
      * by rewrite bool_decide_eq_true_2 by by left.
      * rewrite bool_decide_eq_false_2 by (by intros [|]). by apply Hempty.
Qed.

(** ** More on the directory ensurer and the recursive copier *)

(** X1.  A call of [mkdir_p] that completes leaves every directory on the
    way to the path in place, and all it did to the filesystem was to add
    writable directories on that way: nothing is removed, nothing that was
    there is replaced, nothing elsewhere is created. *)
Theorem mkdir_p_creates_ancestors p w w' :
  wf (fs w) → mkdir_p p w = Ok tt w' →
  (∀ a, a `prefix_of` p → a ≠ p → is_dir (fs w' !! a)) ∧
  adds_dirs (λ q, q `prefix_of` p) w w'.
Proof.
  intros Hwf Hm. split.
  - intros a Ha Hne. eapply wf_ancestor; [| | exact Ha | exact Hne].
    + eapply (preserves_Ok _ _ _ _ _ (mkdir_p_wf _ p)); [| exact Hm].
      by apply wf_world_init.
    + rewrite (mkdir_p_Ok_result _ _ _ Hm). by destruct (fs w !! p); eauto.
  - exact (steps_Ok _ _ _ _ _ (mkdir_p_adds p) Hm).
Qed.

(** X2.  However [copytree(src, dst)] ends, it leaves alone every path that
    is neither [dst], nor above it, nor below it, and it never removes a
    directory or puts something else in its place. *)
Theorem copytree_confined depth src dst w :
  let w' := final (copytree depth src dst w) in
  same_outside (related dst) w w' ∧ keeps_dirs w w'.
Proof.
  split; [apply copytree_same_outside | apply copytree_keeps_dirs].
Qed.

Lemma wf_world_Ok {A} n (m : M A) w a w' :
  preserves (wf_world n) m → wf_world n w → m w = Ok a w' → wf_world n w'.
Proof. apply preserves_Ok. Qed.

Lemma copytree_below_itself depth n src dst w w' :
  wf_world n w → src `prefix_of` dst → src ≠ dst →
  copytree depth src dst w = Ok tt w' → False.
Proof.
  revert src dst w w'.
  induction depth as [|depth IH]; intros src dst w w' Hw [r ->] Hne Hc; [done |].
  destruct r as [|r0 r]; [by rewrite app_nil_r in Hne |]. clear Hne.
  cbn [copytree] in Hc. apply bind_Ok in Hc as (d & w0 & Hd & Hc).
  injection Hd as <- <-.
  destruct (is_dir (fs w !! src)) eqn:Hsrc.
  - apply bind_Ok in Hc as ([] & w1 & H1 & Hc).
    apply bind_Ok in Hc as (names & w1' & Hl & Hloop).
    apply os_listdir_Ok in Hl as (-> & _ & ->).
    assert (Hw1 : wf_world n w1).
    { revert H1. apply wf_world_Ok; [| done].
      apply preserves_exists. intros b. apply preserves_when, mkdir_p_wf. }
    assert (Hdst : is_Some (fs w1 !! (src ++ r0 :: r))).
    { apply bind_Ok in H1 as (b & w0 & Hb & H1). injection Hb as <- <-.
      case_bool_decide as Hex; simpl in H1.
      - by injection H1 as <-.
      - rewrite (mkdir_p_Ok_result _ _ _ H1).
        by destruct (fs w !! (src ++ r0 :: r)); eauto. }
    assert (Hr0 : r0 ∈ listdir_order src (children (fs w1) src)).
    { apply elem_of_listdir. eapply wf_prefix; [apply Hw1 | | exact Hdst].
      exists r. by rewrite <- app_assoc. }
    pose (R := λ a b : world, wf_world n a → wf_world n b).
    assert (PreOrder R) as HR.
    { split; [intros a Ha; exact Ha | intros a b c Hab Hbc Ha; apply Hbc, Hab, Ha]. }
    eapply (for_each_Ok_elem R) in Hloop as (v1 & v2 & Hv1 & Hbody & _);
      [| | exact Hr0].
    2:{ intros y v Hv. by apply copytree_wf. }
    eapply (IH _ _ v1 v2); [by apply Hv1 | | | exact Hbody].
    + exists (r ++ [r0]). by rewrite <- !app_assoc.
    + intros E. apply (f_equal length) in E. rewrite !length_app in E.
      simpl in E. lia.
  - apply bind_Ok in Hc as ([] & w1 & H1 & Hc). injection H1 as <-.
    apply shutil_copyfile_Ok in Hc as (data & Hs & _ & _ & Hpar & _).
    simpl in *. destruct Hw as [Hwf _].
    assert (is_dir (fs w !! src)) as Hd; [| by rewrite Hsrc in Hd].
    destruct (fs w !! (src ++ r0 :: r)) eqn:Hdst.
    + eapply wf_below; [done | | by erewrite Hdst]. done.
    + specialize (Hpar eq_refl). unfold dirname in Hpar.
      rewrite removelast_app in Hpar by done.
      destruct (decide (removelast (r0 :: r) = [])) as [E | E].
      * rewrite E, app_nil_r in Hpar. by rewrite Hpar.
      * eapply wf_below; [done | exact E | by erewrite Hpar].
Qed.

(** X3.  A copy into the source itself never completes: when [dst] lies
    below [src], [copytree(src, dst)] raises, whatever the nesting limit
    (each level of the copy makes the next one deeper). *)
Theorem copytree_below_source_raises depth src dst w :
  wf (fs w) → src `prefix_of` dst → src ≠ dst →
  ∃ e w', copytree depth src dst w = Raise e w'.
Proof.
  intros Hwf Hpre Hne.
  destruct (copytree depth src dst w) as [[] w'|e w'] eqn:Hc; [| by eauto].
  destruct (copytree_below_itself _ _ _ _ _ _ (wf_world_init w Hwf) Hpre Hne Hc).
Qed.

Lemma shutil_rmtree_wf n p : preserves (wf_world n) (shutil_rmtree p).
Proof.
  intros w Hw. destruct (shutil_rmtree p w) as [a w'|e w'] eqn:Hr.
  - apply shutil_rmtree_Ok in Hr as (Hd & Hp & ->). simpl.
    apply wf_world_commit; [done |]. destruct Hw as [[Hroot Hwf] _]. split.
    + rewrite lookup_rmtree. destruct (under p []) eqn:Hu; [| done].
      apply under_prefix, prefix_nil_inv in Hu. done.
    + intros q x. rewrite !lookup_rmtree.
      destruct (under p (q ++ [x])) eqn:Hu; [by intros [? [=]] |].
      intros Hs. apply Hwf in Hs.
      destruct (under p q) eqn:Hu'; [| done].
      apply under_prefix in Hu'. apply under_not_prefix in Hu.
      destruct Hu. by apply prefix_app_r.
  - by apply shutil_rmtree_Raise in Hr as ->.
Qed.

Lemma clean_output_wf n args : preserves (wf_world n) (clean_output args).
Proof. unfold clean_output. repeat preserves_step. apply shutil_rmtree_wf. Qed.

Lemma ensure_output_wf n args : preserves (wf_world n) (ensure_output args).
Proof. unfold ensure_output. repeat preserves_step. apply os_makedirs_wf. Qed.

Lemma parted_apart (base : path) x a y b :
  x ≠ y → apart (base ++ x :: a) (base ++ y :: b).
Proof.
  intros Hxy. split; intros H;
    apply prefix_app_inv, prefix_cons_inv_1 in H; congruence.
Qed.

Lemma os_path_Some_inv args p :
  os_path args = Some p →
  ∃ x, p = base_path ++ ["Package"; "Environment"; x].
Proof.
  unfold os_path. repeat case_match; intros [= <-]; eauto.
Qed.

(** Where the source has nothing, the copy leaves the destination alone. *)
Lemma copytree_only_counterparts depth src dst n w rel :
  wf_world n w → apart src dst → fs w !! (src ++ rel) = None →
  fs (final (copytree depth src dst w)) !! (dst ++ rel) = fs w !! (dst ++ rel).
Proof.
  revert src dst w rel.
  induction depth as [|depth IH]; intros src dst w rel Hw Hap Hrel; [done |].
  pose (I := λ v : world,
    wf_world n v ∧
    (∀ rel', fs v !! (src ++ rel') = fs w !! (src ++ rel')) ∧
    fs v !! (dst ++ rel) = fs w !! (dst ++ rel)).
  assert (HI : I w) by done.
  enough (preserves I (copytree (S depth) src dst)) as Hp by by apply Hp.
  clear HI. cbn [copytree]. intros v Hv. rewrite bind_unfold. simpl.
  destruct (is_dir (fs v !! src)) eqn:Hsrc.
  - assert (Hne : rel ≠ []).
    { intros ->. rewrite app_nil_r in Hrel.
      destruct Hv as (_ & Hsame & _). specialize (Hsame []).
      rewrite app_nil_r, Hrel in Hsame. by rewrite Hsame in Hsrc. }
    destruct rel as [|x rel]; [done |]. clear Hne.
    revert v Hv Hsrc.
    enough (preserves I
      ((e ← os_path_exists dst; when (negb e) (mkdir_p dst)) ;;
       names ← os_listdir src;
       for_each names (λ name, copytree depth (src ++ [name]) (dst ++ [name]))))
      as Hp by (intros v Hv _; by apply Hp).
    apply preserves_bind; [| intros _; apply preserves_listdir; intros names;
                             apply preserves_for_each; intros y _].
    + apply preserves_exists. intros b. apply preserves_when.
      intros v (Hw' & Hsame & Htgt).
      pose proof (mkdir_p_adds dst v) as Hadd. split_and!.
      * by apply mkdir_p_wf.
      * intros rel'. rewrite <- Hsame.
        apply (adds_dirs_same_outside _ _ _ Hadd).
        intros Hpre. eapply apart_not_related; [exact Hap | by left].
      * rewrite <- Htgt. apply (adds_dirs_same_outside _ _ _ Hadd).
        intros Hpre. apply prefix_length in Hpre.
        rewrite length_app in Hpre. simpl in Hpre. lia.
    + intros v (Hw' & Hsame & Htgt).
      pose proof (copytree_same_outside depth (src ++ [y]) (dst ++ [y]) v) as Hout.
      split_and!.
      * by apply copytree_wf.
      * intros rel'. rewrite <- Hsame. apply Hout.
        intros Hr. apply related_snoc in Hr. by eapply apart_not_related.
      * rewrite <- Htgt. destruct (decide (x = y)) as [-> | Hxy].
        -- replace (dst ++ y :: rel) with ((dst ++ [y]) ++ rel)
             by by rewrite <- app_assoc.
           apply IH; [done | by apply apart_snoc |].
           rewrite <- app_assoc. simpl. by rewrite Hsame.
        -- apply Hout. by apply siblings_not_related.
  - destruct Hv as (Hw' & Hsame & Htgt). unfold I. rewrite bind_unfold. simpl.
    set (v' := World (fs v) (stdout v ++ ["COPY: " +:+ render dst]) (hist v)).
    pose proof (shutil_copyfile_same_outside src dst v') as Hout.
    pose proof (shutil_copyfile_wf n src dst v' Hw') as Hwf'.
    destruct (decide (rel = [])) as [-> | Hne].
    + rewrite app_nil_r in Hrel. pose proof (Hsame []) as Hs0.
      rewrite app_nil_r, Hrel in Hs0.
      destruct (shutil_copyfile_missing src dst v' Hs0) as [e He].
      rewrite He in *. simpl. done.
    + split_and!; [done | |].
      * intros rel'. rewrite <- Hsame. apply Hout. intros E.
        destruct Hap as [Hsd Hds]. apply Hsd. exists rel'. by rewrite E.
      * rewrite <- Htgt. apply Hout. intros E.
        apply Hne. apply (f_equal length) in E. rewrite length_app in E.
        apply length_zero_iff_nil. lia.
Qed.


(** X5.  The full profile needs a [collections] directory among the assets.
    On a checkout where neither the common nor the OS-specific assets have
    an entry [collections], a run with [--build full] does not complete: at
    the latest the listing of [output/collections] raises. *)
Theorem full_build_needs_collections args w :
  wf (fs w) → args_build args = "full" →
  fs w !! (common_path ++ ["collections"]) = None →
  (∀ p, os_path args = Some p → fs w !! (p ++ ["collections"]) = None) →
  (∃ e w', package args w = Raise e w') ∧ exit_status (package args w) = 1.
Proof.
  intros Hwf Hbuild Hcommon Hos.
  enough (∀ w1, collect_assets args w = Ok tt w1 → False) as Hno.
  { rewrite package_unfold.
    destruct (collect_assets args w) as [[] w1|e w1] eqn:Hc;
      [by destruct (Hno w1) | by eauto]. }
  intros w1 Hc. set (out := output_path args).
  pose proof (wf_world_init w Hwf) as Hw. set (n := length (hist w)) in *.
  apply bind_Ok in Hc as ([] & wa & Hclean & Hc).
  apply bind_Ok in Hc as ([] & wb & Hens & Hc).
  unfold copy_assets in Hc. rewrite Hbuild in Hc. simpl in Hc.
  apply bind_Ok in Hc as ([] & wc & Hcp1 & Hc).
  apply bind_Ok in Hc as ([] & wd & Hcp2 & Hc).
  apply bind_Ok in Hc as ([] & we & Hmk & Hsc).
  destruct (os_path args) as [p|] eqn:Hop; [| done]. simpl in Hcp2.
  specialize (Hos p eq_refl).
  destruct (os_path_Some_inv _ _ Hop) as [x ->].
  fold out in Hcp1, Hcp2, Hmk.
  assert (Hwa : wf_world n wa).
  { revert Hclean. apply wf_world_Ok; [apply clean_output_wf | done]. }
  assert (Hwb : wf_world n wb).
  { revert Hens. apply wf_world_Ok; [apply ensure_output_wf | done]. }
  assert (Hwc : wf_world n wc).
  { revert Hcp1. apply wf_world_Ok; [apply copytree_wf | done]. }
  assert (Hfrb : same_outside (related out) w wb).
  { etrans.
    - eapply same_outside_mono;
        [| exact (steps_Ok _ _ _ _ _ (clean_output_same_outside args) Hclean)].
      intros q Hq. by right.
    - eapply same_outside_mono;
        [| exact (adds_dirs_same_outside _ _ _
                    (steps_Ok _ _ _ _ _ (ensure_output_adds args) Hens))].
      intros q Hq. by left. }
  assert (Hfrc : same_outside (related out) w wc).
  { etrans; [exact Hfrb |].
    exact (steps_Ok _ _ _ _ _ (copytree_same_outside _ _ _) Hcp1). }
  assert (Hap1 : apart common_path out) by by apply parted_apart.
  assert (Hap2 : apart (base_path ++ ["Package"; "Environment"; x]) out)
    by by apply parted_apart.
  destruct (ensure_output_fresh args wa wb) as (_ & _ & Hempty); try done.
  { by rewrite Hbuild. }
  { intros q Hq. by eapply clean_output_gone. }
  assert (Hb : fs wb !! (out ++ ["collections"]) = None).
  { apply Hempty; [by apply prefix_app_r | apply snoc_ne]. }
  assert (Hcc : fs wc !! (out ++ ["collections"]) = None).
  { pose proof (copytree_only_counterparts recursion_limit common_path out
                  n wb ["collections"] Hwb Hap1) as Hk.
    rewrite Hcp1 in Hk. simpl in Hk. rewrite Hk; [done |].
    rewrite Hfrb; [done | by apply apart_not_related]. }
  assert (Hd : fs wd !! (out ++ ["collections"]) = None).
  { pose proof (copytree_only_counterparts recursion_limit
                  (base_path ++ ["Package"; "Environment"; x]) out
                  n wc ["collections"] Hwc Hap2) as Hk.
    rewrite Hcp2 in Hk. simpl in Hk. rewrite Hk; [done |].
    rewrite Hfrc; [done | by apply apart_not_related]. }
  assert (He : fs we !! (out ++ ["collections"]) = None).
  { rewrite <- Hd.
    apply (adds_dirs_same_outside _ _ _ (steps_Ok _ _ _ _ _ (mkdir_p_adds _) Hmk)).
    intros Hpre. by apply prefix_app_inv, prefix_cons_inv_1 in Hpre. }
  unfold scaffold_collections in Hsc.
  apply bind_Ok in Hsc as (names & w' & Hl & _).
  apply os_listdir_Ok in Hl as (_ & Hdir & _).
  fold out in Hdir. by rewrite He in Hdir.
Qed.

(** ** More on the profiles and the placement of the executable *)

Lemma shutil_copy_Ok src dst w w' :
  shutil_copy src dst w = Ok tt w' →
  ∃ data, fs w !! src = Some (File data) ∧
          stdout w' = stdout w ∧
          fs w' = <[(if is_dir (fs w !! dst) then dst ++ [basename src] else dst)
                    := File data]> (fs w).
Proof.
  unfold shutil_copy. rewrite bind_unfold. simpl.
  destruct (is_dir (fs w !! dst)); intros Hc;
    apply shutil_copyfile_Ok in Hc as (data & Hs & _ & _ & _ & ->); eauto.
Qed.

Lemma basename_app_cons (p : path) x l : basename (p ++ x :: l) = basename (x :: l).
Proof.
  unfold basename. induction p as [|c p IH]; [done |].
  simpl. rewrite IH. by destruct p.
Qed.

Lemma place_linux_Ok args w w' :
  is_dir (fs w !! output_path args) → place_linux args w = Ok tt w' →
  ∃ data,
    fs w !! (base_path ++ ["RetroFE"; "Build"; "retrofe"]) = Some (File data) ∧
    fs w' = <[output_path args ++ ["retrofe"] := File data]> (fs w) ∧
    stdout w' = stdout w.
Proof.
  intros Hout Hp. unfold place_linux in Hp.
  apply shutil_copy_Ok in Hp as (data & Hs & Hstd & Hfs).
  exists data. split_and!; [done | | done].
  rewrite Hfs. apply Is_true_true in Hout. rewrite Hout.
  by rewrite basename_app_cons.
Qed.

(** X6.  On linux the placement is all or nothing.  When it completes it has
    copied the bytes of [RetroFE/Build/retrofe] to [retrofe] in the output
    directory and has done nothing else; when it raises, it has changed
    nothing and printed nothing. *)
Theorem place_linux_delivers args w :
  is_dir (fs w !! output_path args) →
  (∀ w', place_linux args w = Ok tt w' →
     ∃ data,
       fs w !! (base_path ++ ["RetroFE"; "Build"; "retrofe"]) = Some (File data) ∧
       fs w' = <[output_path args ++ ["retrofe"] := File data]> (fs w) ∧
       stdout w' = stdout w) ∧
  (∀ e w', place_linux args w = Raise e w' → w' = w).
Proof.
  intros Hout. split; [intros w'; by apply place_linux_Ok |].
  intros e w'. unfold place_linux, shutil_copy. rewrite bind_unfold. simpl.
  destruct (is_dir _); apply shutil_copyfile_Raise.
Qed.

(** X7.  On windows, a placement that completes has copied the bytes of
    [RetroFE/Build/Release/retrofe.exe] to [retrofe/retrofe.exe] in the
    output directory, making the directory [retrofe] if it was missing;
    unless [output/retrofe] was a regular file, which is then overwritten
    with the executable. *)
Theorem place_windows_delivers args w w' :
  place_windows args w = Ok tt w' →
  let core_path := output_path args ++ ["retrofe"] in
  ∃ data,
    fs w !! (base_path ++ ["RetroFE"; "Build"; "Release"; "retrofe.exe"])
    = Some (File data) ∧
    if is_file (fs w !! core_path)
    then fs w' = <[core_path := File data]> (fs w)
    else is_dir (fs w' !! core_path) ∧
         fs w' !! (core_path ++ ["retrofe.exe"]) = Some (File data).
Proof.
  intros Hp core. unfold place_windows in Hp. fold core in Hp.
  apply bind_Ok in Hp as ([] & w1 & Hmk & Hcp).
  apply shutil_copy_Ok in Hcp as (data & Hs & _ & Hfs).
  rewrite basename_app_cons in Hfs. unfold basename in Hfs. simpl in Hfs.
  apply bind_Ok in Hmk as (b & w0 & Hb & Hmk). injection Hb as <- <-.
  case_bool_decide as Hex; simpl in Hmk.
  - injection Hmk as <-. exists data. split; [done |].
    destruct (fs w !! core) as [[d|b]|] eqn:Hcore; simpl in *;
      [done | | by destruct Hex].
    rewrite Hfs. split; [| apply lookup_insert_eq].
    rewrite lookup_insert_ne by apply snoc_ne. by rewrite Hcore.
  - pose proof (steps_Ok _ _ _ _ _ (os_makedirs_adds core) Hmk) as Hadd.
    pose proof (os_makedirs_result core w) as Hres. rewrite Hmk in Hres.
    exists data. split.
    + destruct (Hadd (base_path ++ ["RetroFE"; "Build"; "Release"; "retrofe.exe"]))
        as [E | (_ & _ & E)]; congruence.
    + assert (fs w !! core = None) as ->.
      { destruct (fs w !! core) eqn:E; [destruct Hex; eauto | done]. }
      simpl. rewrite Hres in Hfs. simpl in Hfs. rewrite Hfs.
      split; [| apply lookup_insert_eq].
      rewrite lookup_insert_ne by apply snoc_ne. by rewrite Hres.
Qed.

Lemma package_none args w :
  args_build args = "none" → package args w = clean_output args w.
Proof.
  intros Hb. rewrite package_without_executable
    by (unfold wants_executable; by rewrite Hb).
  unfold collect_assets, ensure_output, copy_assets. rewrite Hb.
  rewrite !bind_unfold. simpl.
  by destruct (clean_output args w) as [[] w1|].
Qed.

(** X8.  With [--build none] the run is the cleaning step alone.  It removes
    the output tree if there is one, leaves every other path as it was,
    prints nothing, and does not make the output directory again; on a
    checkout without output tree it does nothing at all. *)
Theorem none_profile_only_removes args w :
  wf (fs w) → args_build args = "none" →
  (fs w !! output_path args = None → package args w = Ok tt w) ∧
  ∀ w', package args w = Ok tt w' →
    (∀ q, output_path args `prefix_of` q → fs w' !! q = None) ∧
    (∀ q, ¬ output_path args `prefix_of` q → fs w' !! q = fs w !! q) ∧
    stdout w' = stdout w.
Proof.
  intros Hwf Hb. rewrite (package_none _ _ Hb). split.
  - intros Hnone. rewrite clean_output_unfold.
    rewrite bool_decide_eq_false_2; [done |]. rewrite Hnone. by intros [? [=]].
  - intros w' Hc. split_and!.
    + intros q Hq. by eapply clean_output_gone.
    + exact (steps_Ok _ _ _ _ _ (clean_output_same_outside args) Hc).
    + exact (steps_Ok _ _ _ _ _ (clean_output_stdout args) Hc).
Qed.

(** X9.  On linux the profiles [core] and [engine] package the executable
    and nothing else: after a run that completed, the output tree is the
    output directory with the one file [retrofe] in it, holding the bytes of
    [RetroFE/Build/retrofe], whatever the output tree held before; every path
    that is not above or below the output directory is as it was. *)
Theorem linux_core_output args w w' :
  wf (fs w) → args_os args = "linux" →
  args_build args = "core" ∨ args_build args = "engine" →
  package args w = Ok tt w' →
  ∃ data,
    fs w !! (base_path ++ ["RetroFE"; "Build"; "retrofe"]) = Some (File data) ∧
    (∀ q, output_path args `prefix_of` q →
          fs w' !! q =
          if bool_decide (q = output_path args) then Some (Dir true)
          else if bool_decide (q = output_path args ++ ["retrofe"])
               then Some (File data) else None) ∧
    same_outside (related (output_path args)) w w'.
Proof.
  intros Hwf Hos Hb Hp. set (out := output_path args).
  assert (Hwant : wants_executable args = true).
  { unfold wants_executable. by destruct Hb as [-> | ->]. }
  assert (Hnone : args_build args ≠ "none") by by destruct Hb as [-> | ->].
  rewrite package_unfold in Hp.
  destruct (collect_assets args w) as [[] w1|] eqn:Hc; [| done].
  pose proof (steps_Ok _ _ _ _ _ (collect_assets_same_outside args) Hc) as Hfr.
  assert (Hexe : ∀ l, fs w1 !! (base_path ++ "RetroFE" :: l)
                      = fs w !! (base_path ++ "RetroFE" :: l)).
  { intros l. by eapply collect_assets_elsewhere. }
  apply bind_Ok in Hc as ([] & wa & Hclean & Hc).
  apply bind_Ok in Hc as ([] & wb & Hens & Hc).
  assert (wb = w1) as ->.
  { unfold copy_assets in Hc. destruct Hb as [E | E]; rewrite E in Hc;
      by injection Hc. }
  destruct (ensure_output_fresh args wa w1) as (_ & Hout & Hempty); try done.
  { intros q Hq. by eapply clean_output_gone. }
  unfold place_executable in Hp. rewrite Hwant, Hos in Hp. simpl in Hp.
  apply place_linux_Ok in Hp as (data & Hs & Hfs & _);
    [| by rewrite Hout].
  exists data. split_and!.
  - by rewrite <- Hexe.
  - intros q Hq. rewrite Hfs. fold out.
    case_bool_decide as E1; [subst q |].
    + rewrite lookup_insert_ne by apply snoc_ne. exact Hout.
    + case_bool_decide as E2; [subst q; apply lookup_insert_eq |].
      rewrite lookup_insert_ne by done. by apply Hempty.
  - intros q Hq. rewrite Hfs, lookup_insert_ne; [by apply Hfr |].
    intros <-. apply Hq. right. by apply prefix_app_r.
Qed.

(** ** More on the command line *)


Lemma parse_optionals_no_os n argv b c o b' c' :
  length argv ≤ n →
  Forall (λ a, a ≠ "--os" ∧ explicit_arg "--os" a = None) argv →
  parse_optionals argv None b c = Some (o, b', c') → o = None.
Proof.
  revert argv b c. induction n as [|n IH]; intros argv b c Hlen Hall Hp.
  { destruct argv; [| simpl in Hlen; lia]. by injection Hp as <- _ _. }
  destruct argv as [|a rest]; [by injection Hp as <- _ _ |].
  simpl in Hlen. apply Forall_cons in Hall as [[Ha Hex] Hall].
  cbn [parse_optionals] in Hp. rewrite Hex in Hp.
  destruct (String.eqb a "--clean"); [eapply IH; [| | exact Hp]; [lia | done] |].
  destruct (explicit_arg "--build" a) as [v|];
    [eapply IH; [| | exact Hp]; [lia | done] |].
  destruct rest as [|v rest']; [done |]. simpl in Hlen.
  apply Forall_cons in Hall as [_ Hall].
  destruct (looks_like_option v); [done |].
  destruct (String.eqb_spec a "--os"); [done |].
  destruct (String.eqb a "--build"); [| done].
  eapply IH; [| | exact Hp]; [lia | done].
Qed.


Lemma not_spelled_os a :
  String.prefix "--o" a = false → a ≠ "--os" ∧ explicit_arg "--os" a = None.
Proof.
  intros Ha. split; [by intros -> |]. unfold explicit_arg.
  change ("--os" +:+ "=") with "--os=".
  destruct a as [|c1 [|c2 [|c3 a]]];
    cbn [String.prefix String.append String.length] in *;
    repeat (destruct (Ascii.ascii_dec _ _); try done);
    try done; by destruct a.
Qed.

(** X11.  [--os] is required.  A command line that does not give it (no
    word starts with [--o], the option or an abbreviation of it) and does
    not ask for help (no word starts with [-h] or [--h]) is a usage error:
    the run ends with status 2 and touches nothing. *)
Theorem missing_os_is_usage_error argv w :
  Forall (λ a, String.prefix "--o" a = false ∧ String.prefix "-h" a = false ∧
               String.prefix "--h" a = false) argv →
  parse_args argv = None ∧ main argv w = (2, w).
Proof.
  intros Hall.
  assert (Hnone : parse_args argv = None).
  { unfold parse_args.
    destruct (parse_optionals argv None "full" false) as [[[[os|] b] c]|] eqn:Hp;
      try done.
    apply (parse_optionals_no_os (length argv)) in Hp; [done | done |].
    eapply Forall_impl; [exact Hall |]. intros a [Ha _].
    by apply not_spelled_os. }
  split; [done |]. unfold main. by rewrite Hnone.
Qed.

(** ** More on the mac bundle *)

Lemma graft_entries (m : FS) src dst q n :
  (q, n) ∈ omap (λ kv, (λ rel, (dst ++ rel, kv.2)) <$> relative_to src kv.1)
               (map_to_list m)
  ↔ ∃ rel, q = dst ++ rel ∧ m !! (src ++ rel) = Some n.
Proof.
  rewrite list_elem_of_omap. split.
  - intros ([k v] & Hin & Hf). simpl in Hf.
    destruct (relative_to src k) as [rel|] eqn:Hr; [| done].
    injection Hf as <- <-. apply relative_to_Some in Hr as ->.
    apply elem_of_map_to_list in Hin. eauto.
  - intros (rel & -> & Hn). exists (src ++ rel, n).
    split; [by apply elem_of_map_to_list |]. simpl.
    by rewrite relative_to_app.
Qed.

Lemma lookup_graft (m : FS) src dst rel :
  graft m src dst !! (dst ++ rel) = m !! (src ++ rel).
Proof.
  unfold graft.
  set (l := omap _ (map_to_list m)).
  assert (Hnd : NoDup l.*1).
  { unfold l. pose proof (NoDup_fst_map_to_list m) as Hm.
    induction (map_to_list m) as [|[k v] t IH]; simpl; [constructor |].
    apply NoDup_cons in Hm as [Hk Hm].
    destruct (relative_to src k) as [r|] eqn:Hr; simpl; [| by apply IH].
    apply NoDup_cons. split; [| by apply IH].
    intros Hin. apply list_elem_of_fmap in Hin as ([q' n'] & Hq & Hin).
    simpl in Hq. subst q'. apply list_elem_of_omap in Hin as ([k' v'] & Hin & Hf).
    simpl in Hf. destruct (relative_to src k') as [r'|] eqn:Hr'; [| done].
    injection Hf as Hf _. apply app_inv_head in Hf.
    apply relative_to_Some in Hr. apply relative_to_Some in Hr'.
    assert (k' = k) as -> by congruence.
    apply Hk. apply list_elem_of_fmap. by exists (k, v'). }
  destruct (m !! (src ++ rel)) as [n|] eqn:Hn.
  - apply elem_of_list_to_map; [done |]. apply graft_entries. eauto.
  - apply not_elem_of_list_to_map. intros Hin.
    apply list_elem_of_fmap in Hin as ([q n] & Hq & Hin). simpl in Hq. subst q.
    apply graft_entries in Hin as (rel' & Hrel & Hn').
    apply app_inv_head in Hrel as <-. congruence.
Qed.

(** X12.  On mac, when the Release directory has [RetroFE.app], a placement
    that completes leaves in [output/RetroFE.app] an exact copy of that tree:
    every entry of the bundle is there, and nothing else, so what an earlier
    bundle at the destination held and the new one does not is gone.  The
    bare [retrofe] executable is not looked at. *)
Theorem place_mac_mirrors_bundle args w w' :
  wf (fs w) →
  let src_app := base_path ++ ["RetroFE"; "Build"; "Release"; "RetroFE.app"] in
  let dest_app := output_path args ++ ["RetroFE.app"] in
  is_Some (fs w !! src_app) → place_mac args w = Ok tt w' →
  ∀ rel, fs w' !! (dest_app ++ rel) = fs w !! (src_app ++ rel).
Proof.
  intros Hwf src_app dest_app Hsrc Hp rel.
  unfold place_mac in Hp. rewrite <- !app_assoc in Hp. simpl in Hp.
  fold src_app in Hp. fold dest_app in Hp.
  apply bind_Ok in Hp as (b & w0 & Hb & Hp). injection Hb as <- <-.
  rewrite bool_decide_eq_true_2 in Hp by done.
  apply bind_Ok in Hp as ([] & w1 & Hrm & Hcp).
  assert (Hap : ¬ related dest_app (src_app ++ rel)).
  { unfold src_app, dest_app, output_path. rewrite <- !app_assoc. simpl.
    by apply parted_not_related. }
  assert (Hfr1 : same_outside (λ q, dest_app `prefix_of` q) w w1).
  { revert Hrm. apply steps_Ok. apply preserves_steps; [apply _ |]. intros v0.
    repeat preserves_step.
    apply steps_preserves; [apply _ | apply shutil_rmtree_same_outside]. }
  assert (Hgone : ∀ r, r ≠ [] → fs w1 !! (dest_app ++ r) = None).
  { intros r Hr. apply bind_Ok in Hrm as (b & w0 & Hb & Hrm).
    injection Hb as <- <-. case_bool_decide as Hex; simpl in Hrm.
    - eapply shutil_rmtree_gone; [exact Hrm | by apply prefix_app_r].
    - injection Hrm as <-. destruct (fs w !! (dest_app ++ r)) eqn:E; [| done].
      destruct Hex. eapply wf_prefix; [done | | by erewrite E].
      by apply prefix_app_r. }
  unfold shutil_copytree in Hcp.
  destruct (stat (fs w1) src_app) as [e|[d|bd]] eqn:Hst; try done.
  destruct (os_makedirs dest_app w1) as [[] w2|] eqn:Hmk; [| done].
  injection Hcp as <-. simpl.
  assert (Hsame : fs w1 !! (src_app ++ rel) = fs w !! (src_app ++ rel)).
  { apply Hfr1. intros Hpre. apply Hap. by right. }
  destruct (fs w !! (src_app ++ rel)) as [n|] eqn:Hn.
  - apply lookup_union_Some_l. by rewrite lookup_graft.
  - rewrite lookup_union_r by by rewrite lookup_graft.
    assert (Hrel : rel ≠ []).
    { intros ->. rewrite app_nil_r in Hn. rewrite Hn in Hsrc. by destruct Hsrc. }
    pose proof (steps_Ok _ _ _ _ _ (os_makedirs_adds dest_app) Hmk) as Hadd.
    rewrite (adds_dirs_same_outside _ _ _ Hadd); [by apply Hgone |].
    intros Hpre. apply prefix_length in Hpre. rewrite length_app in Hpre.
    destruct rel; [done | simpl in Hpre; lia].
Qed.

(** X13.  On mac, when the Release directory has no [RetroFE.app] but has
    [retrofe], a placement that completes has copied the bytes of that file
    to [retrofe] in the output directory and has done nothing else. *)
Theorem place_mac_falls_back args w w' :
  fs w !! (base_path ++ ["RetroFE"; "Build"; "Release"; "RetroFE.app"]) = None →
  is_Some (fs w !! (base_path ++ ["RetroFE"; "Build"; "Release"; "retrofe"])) →
  is_dir (fs w !! output_path args) → place_mac args w = Ok tt w' →
  ∃ data,
    fs w !! (base_path ++ ["RetroFE"; "Build"; "Release"; "retrofe"])
    = Some (File data) ∧
    fs w' = <[output_path args ++ ["retrofe"] := File data]> (fs w) ∧
    stdout w' = stdout w.
Proof.
  intros Happ Hexe Hout Hp.
  unfold place_mac in Hp. rewrite <- !app_assoc in Hp. simpl in Hp.
  rewrite !bind_unfold in Hp. simpl in Hp. rewrite Happ in Hp. simpl in Hp.
  apply bind_Ok in Hp as (b & w0 & Hb & Hp). injection Hb as <- <-.
  rewrite bool_decide_eq_true_2 in Hp by done.
  apply shutil_copy_Ok in Hp as (data & Hs & Hstd & Hfs).
  exists data. split_and!; [done | | done].
  rewrite Hfs. apply Is_true_true in Hout. rewrite Hout.
  by rewrite basename_app_cons.
Qed.

(** ** The full profile, end to end *)

Lemma shutil_copy_same_outside src dst :
  steps (same_outside (λ q, q = dst ∨ q = dst ++ [basename src]))
        (shutil_copy src dst).
Proof.
  apply preserves_steps; [apply _ |]. intros w0. unfold shutil_copy.
  preserves_step.
  match goal with |- context [if ?b then _ else _] => destruct b end;
    (apply steps_preserves; [apply _ |]);
    (eapply steps_mono; [| apply shutil_copyfile_same_outside]);
    intros ? ?; apply same_outside_mono; intros q ->; tauto.
Qed.

Lemma graft_outside (m : FS) src dst q :
  ¬ dst `prefix_of` q → graft m src dst !! q = None.
Proof.
  intros Hq. unfold graft. apply not_elem_of_list_to_map. intros Hin.
  apply list_elem_of_fmap in Hin as ([q' n] & Hq' & Hin). simpl in Hq'. subst q'.
  apply graft_entries in Hin as (rel & -> & _). apply Hq. by apply prefix_app_r.
Qed.

Lemma shutil_copytree_same_outside src dst :
  steps (same_outside (related dst)) (shutil_copytree src dst).
Proof.
  intros w. unfold shutil_copytree.
  destruct (stat (fs w) src) as [e|[d|b]]; try by intros q.
  pose proof (os_makedirs_related dst w) as Hmk.
  destruct (os_makedirs dst w) as [[] w1|e w1]; simpl in *; [| done].
  intros q Hq. simpl. rewrite lookup_union_r; [by apply Hmk |].
  apply graft_outside. intros H. apply Hq. by right.
Qed.

Lemma place_executable_same_outside args :
  steps (same_outside (λ q, related (output_path args ++ ["retrofe"]) q ∨
                            related (output_path args ++ ["RetroFE.app"]) q))
        (place_executable args).
Proof.
  apply preserves_steps; [apply _ |]. intros w0. unfold place_executable.
  destruct (String.eqb _ "windows");
    [| destruct (String.eqb _ "linux"); [| destruct (String.eqb _ "mac")]];
    [| | | apply preserves_ret].
  - unfold place_windows. repeat preserves_step.
    + apply steps_preserves; [apply _ |].
      eapply steps_mono; [| apply os_makedirs_related].
      intros ? ?. apply same_outside_mono. tauto.
    + apply steps_preserves; [apply _ |].
      eapply steps_mono; [| apply shutil_copy_same_outside].
      intros ? ?. apply same_outside_mono. intros q [-> | ->]; left.
      * by left.
      * right. by apply prefix_app_r.
  - unfold place_linux. repeat preserves_step.
    apply steps_preserves; [apply _ |].
    eapply steps_mono; [| apply shutil_copy_same_outside].
    intros ? ?. apply same_outside_mono. intros q [-> | ->]; left.
    + left. by apply prefix_app_r.
    + rewrite basename_app_cons. by left.
  - unfold place_mac. preserves_step. preserves_step.
    match goal with |- context [if ?b then _ else _] => destruct b end.
    + repeat preserves_step.
      * apply steps_preserves; [apply _ |].
        eapply steps_mono; [| apply shutil_rmtree_same_outside].
        intros ? ?. apply same_outside_mono. intros q Hq. right. by right.
      * apply steps_preserves; [apply _ |].
        eapply steps_mono; [| apply shutil_copytree_same_outside].
        intros ? ?. apply same_outside_mono. tauto.
    + preserves_step.
      match goal with |- context [if ?b then _ else _] => destruct b end.
      * apply steps_preserves; [apply _ |].
        eapply steps_mono; [| apply shutil_copy_same_outside].
        intros ? ?. apply same_outside_mono. intros q [-> | ->]; left.
        -- left. by apply prefix_app_r.
        -- rewrite <- app_assoc. simpl. rewrite basename_app_cons. by left.
      * intros w Hw q Hq. by apply Hw.
Qed.

(** X14.  The default profile delivers the assets.  After a run with
    [--build full] that completed, the output directory holds every regular
    file of the OS-specific assets, and every regular file of the common
    assets at a place where the OS-specific assets have nothing, under the
    same relative path, whatever the output directory held before; only
    what is under [retrofe] or [RetroFE.app], where the executable goes, is
    excepted.  The scaffolding and the executable leave these files alone. *)
Theorem full_build_delivers_assets args w w' p :
  wf (fs w) → args_build args = "full" → os_path args = Some p →
  package args w = Ok tt w' →
  ∀ x rest data, x ≠ "retrofe" → x ≠ "RetroFE.app" →
    fs w !! (p ++ x :: rest) = Some (File data) ∨
    (fs w !! (p ++ x :: rest) = None ∧
     fs w !! (common_path ++ x :: rest) = Some (File data)) →
    fs w' !! (output_path args ++ x :: rest) = Some (File data).
Proof.
  intros Hwf Hb Hos Hp x rest data Hx1 Hx2 Hsrc.
  set (out := output_path args) in *.
  rewrite package_unfold in Hp.
  destruct (collect_assets args w) as [[] w3|] eqn:Hc; [| done].
  rewrite (steps_Ok _ _ _ _ _ (place_executable_same_outside args) Hp).
  2:{ fold out. intros [H | H]; revert H; by apply siblings_not_related. }
  clear Hp w'.
  apply bind_Ok in Hc as ([] & wa & Hclean & Hc).
  apply bind_Ok in Hc as ([] & wb & Hens & Hc).
  unfold copy_assets in Hc. rewrite Hb in Hc. simpl in Hc.
  apply bind_Ok in Hc as ([] & w1 & H1 & Hc).
  apply bind_Ok in Hc as ([] & w2 & H2 & Hc).
  apply bind_Ok in Hc as ([] & wm & Hm & Hsc).
  rewrite Hos in H2. simpl in H2. fold out in H1, H2, Hm.
  eapply adds_dirs_keeps;
    [exact (steps_Ok _ _ _ _ _ (scaffold_collections_adds args) Hsc) |].
  eapply adds_dirs_keeps; [exact (steps_Ok _ _ _ _ _ (mkdir_p_adds _) Hm) |].
  apply os_path_Some_inv in Hos as [o ->].
  assert (Hwb : wf_world (length (hist w)) wb).
  { eapply wf_world_Ok; [apply ensure_output_wf | | exact Hens].
    eapply wf_world_Ok; [apply clean_output_wf | | exact Hclean].
    by apply wf_world_init. }
  assert (Hw1 : wf_world (length (hist w)) w1).
  { eapply wf_world_Ok; [apply copytree_wf | exact Hwb | exact H1]. }
  assert (Hbefore : ∀ l, fs wb !! (base_path ++ "Package" :: l)
                         = fs w !! (base_path ++ "Package" :: l)).
  { intros l.
    pose proof (steps_Ok _ _ _ _ _ (clean_output_same_outside args) Hclean) as Ha.
    pose proof (steps_Ok _ _ _ _ _ (ensure_output_adds args) Hens) as Hb'.
    apply adds_dirs_same_outside in Hb'.
    assert (Hnr : ¬ related out (base_path ++ "Package" :: l)).
    { unfold out, output_path. by apply parted_not_related. }
    rewrite Hb', Ha; [done | |]; intros H; apply Hnr; [by right | by left]. }
  assert (Hcopy1 : ∀ l, fs w1 !! (base_path ++ "Package" :: l)
                        = fs wb !! (base_path ++ "Package" :: l)).
  { intros l. apply (steps_Ok _ _ _ _ _ (copytree_same_outside _ _ _) H1).
    unfold out, output_path. by apply parted_not_related. }
  assert (Hac : apart common_path out).
  { unfold common_path, out, output_path. by apply parted_apart. }
  assert (Hap : apart (base_path ++ ["Package"; "Environment"; o]) out).
  { unfold out, output_path. by apply parted_apart. }
  destruct Hsrc as [Hos | [Hnone Hcommon]].
  - eapply copytree_copies; [exact Hw1 | exact Hap | exact H2 |].
    rewrite <- Hos, <- !app_assoc. simpl. by rewrite Hcopy1, Hbefore.
  - pose proof (copytree_only_counterparts recursion_limit
                  (base_path ++ ["Package"; "Environment"; o]) out _ w1
                  (x :: rest) Hw1 Hap) as Hkeep.
    rewrite H2 in Hkeep. simpl in Hkeep. rewrite Hkeep.
    + eapply copytree_copies; [exact Hwb | exact Hac | exact H1 |].
      rewrite <- Hcommon. unfold common_path. rewrite <- !app_assoc. simpl.
      by rewrite Hbefore.
    + rewrite <- Hnone, <- !app_assoc. simpl. by rewrite Hcopy1, Hbefore.
Qed.

(** ** The layout profile, end to end *)

Lemma copy_if_found_Ok src dst n w w' :
  (e ← os_path_exists src; when e (copytree recursion_limit src dst)) w
  = Ok tt w' →
  wf_world n w → apart src dst →
  (∀ rel data, fs w !! (src ++ rel) = Some (File data) →
               fs w' !! (dst ++ rel) = Some (File data)) ∧
  (∀ rel, fs w !! (src ++ rel) = None →
          fs w' !! (dst ++ rel) = fs w !! (dst ++ rel)) ∧
  wf_world n w' ∧ same_outside (related dst) w w'.
Proof.
  intros Hm Hw Hap. apply bind_Ok in Hm as (e & w0 & He & Hm).
  injection He as <- <-. case_bool_decide as Hex; simpl in Hm.
  - split_and!.
    + by eapply copytree_copies.
    + intros rel Hrel.
      pose proof (copytree_only_counterparts recursion_limit src dst n w rel
                    Hw Hap Hrel) as Hkeep.
      by rewrite Hm in Hkeep.
    + eapply wf_world_Ok; [apply copytree_wf | exact Hw | exact Hm].
    + exact (steps_Ok _ _ _ _ _ (copytree_same_outside _ _ _) Hm).
  - injection Hm as <-. split_and!; [| done | done | done].
    intros rel data Hrel. destruct Hex.
    eapply wf_prefix; [apply Hw | by apply prefix_app_r | by erewrite Hrel].
Qed.

(** X15.  The layout profile packages the layouts and nothing else.  After a
    run with [--build layout] that completed, [output/layouts] holds every
    regular file of the OS-specific [layouts], and every regular file of the
    common [layouts] at a place where the OS-specific ones have nothing,
    under the same relative path; and the output directory holds nothing
    beside [layouts]: what an earlier run left there is gone and no
    executable is placed. *)
Theorem layout_profile_output args w w' p :
  wf (fs w) → args_build args = "layout" → os_path args = Some p →
  package args w = Ok tt w' →
  let dest := output_path args ++ ["layouts"] in
  (∀ rel data,
     fs w !! (p ++ "layouts" :: rel) = Some (File data) ∨
     (fs w !! (p ++ "layouts" :: rel) = None ∧
      fs w !! (common_path ++ "layouts" :: rel) = Some (File data)) →
     fs w' !! (dest ++ rel) = Some (File data)) ∧
  (∀ q, output_path args `prefix_of` q → q ≠ output_path args →
        ¬ dest `prefix_of` q → fs w' !! q = None).
Proof.
  intros Hwf Hb Hos Hp dest.
  set (out := output_path args) in *.
  rewrite package_without_executable in Hp
    by (unfold wants_executable; by rewrite Hb).
  apply bind_Ok in Hp as ([] & wa & Hclean & Hc).
  apply bind_Ok in Hc as ([] & wb & Hens & Hc).
  unfold copy_assets in Hc. rewrite Hb in Hc. simpl in Hc.
  unfold build_layout in Hc. rewrite Hos in Hc. simpl in Hc.
  fold out in Hc. fold dest in Hc.
  apply bind_Ok in Hc as ([] & wc & HA & Hc).
  apply bind_Ok in Hc as ([] & w1 & HB & HC).
  apply os_path_Some_inv in Hos as [o ->].
  assert (Hwb : wf_world (length (hist w)) wb).
  { eapply wf_world_Ok; [apply ensure_output_wf | | exact Hens].
    eapply wf_world_Ok; [apply clean_output_wf | | exact Hclean].
    by apply wf_world_init. }
  assert (Hwc : wf_world (length (hist w)) wc).
  { eapply wf_world_Ok; [| exact Hwb | exact HA].
    repeat preserves_step. apply os_makedirs_wf. }
  assert (HfA : same_outside (related dest) wb wc).
  { revert HA. apply steps_Ok. apply preserves_steps; [apply _ |]. intros w0.
    repeat preserves_step.
    apply steps_preserves; [apply _ | apply os_makedirs_related]. }
  assert (Hnr : ∀ l, ¬ related dest (base_path ++ "Package" :: l)).
  { intros l. unfold dest, out, output_path. rewrite <- app_assoc. simpl.
    by apply parted_not_related. }
  assert (Hbefore : ∀ l, fs wc !! (base_path ++ "Package" :: l)
                         = fs w !! (base_path ++ "Package" :: l)).
  { intros l. rewrite HfA by apply Hnr.
    pose proof (steps_Ok _ _ _ _ _ (clean_output_same_outside args) Hclean) as Ha.
    pose proof (steps_Ok _ _ _ _ _ (ensure_output_adds args) Hens) as Hb'.
    apply adds_dirs_same_outside in Hb'.
    assert (Hnr' : ¬ related out (base_path ++ "Package" :: l)).
    { unfold out, output_path. by apply parted_not_related. }
    rewrite Hb', Ha; [done | |]; intros H; apply Hnr'; [by right | by left]. }
  assert (Hac : apart (common_path ++ ["layouts"]) dest).
  { unfold common_path, dest, out, output_path. rewrite <- !app_assoc. simpl.
    by apply parted_apart. }
  assert (Hap : apart ((base_path ++ ["Package"; "Environment"; o]) ++ ["layouts"])
                      dest).
  { unfold dest, out, output_path. rewrite <- !app_assoc. simpl.
    by apply parted_apart. }
  destruct (copy_if_found_Ok _ _ _ _ _ HB Hwc Hac)
    as (Hcopy1 & _ & Hw1 & HfB).
  destruct (copy_if_found_Ok _ _ _ _ _ HC Hw1 Hap)
    as (Hcopy2 & Hkeep2 & _ & HfC).
  assert (Hsrc1 : ∀ l, fs w1 !! (base_path ++ "Package" :: l)
                       = fs w !! (base_path ++ "Package" :: l)).
  { intros l. rewrite HfB by apply Hnr. apply Hbefore. }
  split.
  - intros rel data [Hsrc | [Hnone Hcommon]].
    + apply Hcopy2. rewrite <- Hsrc, <- !app_assoc. simpl. apply Hsrc1.
    + rewrite Hkeep2.
      * apply Hcopy1. rewrite <- Hcommon. unfold common_path.
        rewrite <- !app_assoc. simpl. apply Hbefore.
      * rewrite <- Hnone, <- !app_assoc. simpl. apply Hsrc1.
  - intros q Hq Hne Hnd.
    assert (Hnrq : ¬ related dest q).
    { intros [H | H]; [| done]. destruct Hq as [k ->].
      apply prefix_app_inv in H. destruct H as [k' Hk].
      destruct k as [|x k]; [by rewrite app_nil_r in Hne |].
      injection Hk as <- Hk. destruct k; [| done].
      apply Hnd. by exists []. }
    rewrite HfC, HfB, HfA by done.
    destruct (ensure_output_fresh args wa wb) as (_ & _ & Hempty);
      [by rewrite Hb | | done | by apply Hempty].
    intros q' Hq'. by eapply clean_output_gone.
Qed.

(** ** Edge cases *)

(** X16.  When the output path is a regular file the run fails whatever the
    options: the cleaning step, which runs with and without [--clean] and
    for every profile, calls [shutil.rmtree] on the file, which raises
    [NotADirectoryError].  Nothing is changed and the status is 1. *)
Theorem output_regular_file_is_fatal args w data :
  fs w !! output_path args = Some (File data) →
  package args w = Raise (OSError ENOTDIR) w ∧ exit_status (package args w) = 1.
Proof.
  intros Hout.
  assert (Hp : package args w = Raise (OSError ENOTDIR) w).
  { rewrite package_unfold. unfold collect_assets. rewrite bind_unfold.
    rewrite clean_output_unfold, bool_decide_eq_true_2 by (by rewrite Hout).
    unfold shutil_rmtree, stat. by rewrite Hout. }
  by rewrite Hp.
Qed.

(** X17.  [copytree] of a source that does not exist takes the branch for
    regular files ([os.path.isdir] is false for a missing path): it prints
    the [COPY] line for the destination and then fails in [shutil.copyfile],
    with the filesystem unchanged. *)
Theorem copytree_missing_source depth src dst w :
  fs w !! src = None →
  ∃ e, copytree (S depth) src dst w
       = Raise (OSError e) (printed ("COPY: " +:+ render dst) w).
Proof.
  intros Hsrc. cbn [copytree]. rewrite bind_unfold. simpl. rewrite Hsrc. simpl.
  rewrite bind_unfold. simpl.
  destruct (shutil_copyfile_missing src dst (printed ("COPY: " +:+ render dst) w))
    as [e He]; [done |].
  exists e. exact He.
Qed.

End Package.

(** ** The script on the example filesystems *)

(** Closes a goal between closed terms by evaluating both sides. *)
Ltac by_evaluation :=
  lazymatch goal with
  | |- ?a = ?b => vm_cast_no_check (@eq_refl _ b)
  | |- Is_true _ => vm_cast_no_check I
  | |- ¬ _ => apply (bool_decide_unpack _); vm_cast_no_check I
  | |- _ => apply (bool_decide_unpack _); vm_cast_no_check I
  end.

Lemma ok_final (r : outcome unit) : is_ok r = true → r = Ok tt (final r).
Proof. by destruct r as [[] w|e w]. Qed.

(** Closes a goal [m w = Ok tt (final (m w))] by running [m]. *)
Ltac by_running := apply ok_final; by_evaluation.

Lemma as_stored_perm (p : path) (l : list string) : as_stored p l ≡ₚ l.
Proof. reflexivity. Qed.

Lemma wf_checkout : wf checkout.
Proof. apply wf_check_spec. by_evaluation. Qed.

Lemma wf_checkout_locked : wf checkout_locked.
Proof. apply wf_check_spec. by_evaluation. Qed.

(** C1 (the code departs from the claim).  The cleaning step asks
    [hasattr(args, 'clean')], which holds for every parsed command line, so
    the step does the same with and without [--clean]: a run without the
    flag, here [--os linux --build none] on a checkout that has the output of
    an earlier run, removes the output directory and all that is in it. *)
Theorem clean_flag_is_ignored :
  (∀ base os build w,
     clean_output base (Args os build false) w
     = clean_output base (Args os build true) w) ∧
  parse_args ["--os"; "linux"; "--build"; "none"]
  = Some (Args "linux" "none" false) ∧
  let w := start checkout_with_output in
  let r := main as_stored 1000 ["repo"] ["--os"; "linux"; "--build"; "none"] w in
  fs w !! ["repo"; "Artifacts"; "linux"; "RetroFE"] = Some (Dir true) ∧
  fs w !! ["repo"; "Artifacts"; "linux"; "RetroFE"; "stale.txt"]
  = Some (File "old") ∧
  r.1 = 0 ∧
  fs r.2 !! ["repo"; "Artifacts"; "linux"; "RetroFE"] = None ∧
  fs r.2 !! ["repo"; "Artifacts"; "linux"; "RetroFE"; "stale.txt"] = None.
Proof.
  split; [reflexivity |]. split; [by_evaluation |].
  intros w r. split_and!; by_evaluation.
Qed.

(** C2, the claim as stated fails: the path is a regular file, [os.makedirs]
    fails on it, and [mkdir_p] returns normally. *)
Lemma mkdir_p_swallows_regular_file :
  let w := start checkout in
  let p := ["repo"; "Scripts"; "Package.py"] in
  fs w !! p = Some (File "import argparse") ∧
  os_makedirs p w = Raise (OSError EEXIST) w ∧
  mkdir_p p w = Ok tt (printed "CREATE: /repo/Scripts/Package.py" w).
Proof. intros w p. split_and!; by_evaluation. Qed.

Lemma mkdir_p_errors_witness :
  wf (fs (start checkout)) ∧
  mkdir_p ["repo"; "Scripts"; "Package.py"; "cache"] (start checkout)
  = Raise (OSError ENOTDIR)
          (printed "CREATE: /repo/Scripts/Package.py/cache" (start checkout)) ∧
  mkdir_p ["repo"; "locked"; "out"] (start checkout_locked)
  = Raise (OSError EACCES)
          (printed "CREATE: /repo/locked/out" (start checkout_locked)).
Proof.
  split; [exact wf_checkout |]. split.
  - apply (proj1 (proj2 (proj2
      (mkdir_p_errors ["repo"; "Scripts"; "Package.py"; "cache"]
                      (start checkout) wf_checkout)))
      ["repo"; "Scripts"; "Package.py"] "cache" [] "import argparse");
      by_evaluation.
  - apply (proj2 (proj2 (proj2
      (mkdir_p_errors ["repo"; "locked"; "out"]
                      (start checkout_locked) wf_checkout_locked)))
      ["repo"; "locked"] "out" []); by_evaluation.
Defined.

Lemma mkdir_p_idempotent_witness :
  let w := start checkout in
  let p := ["repo"; "Artifacts"; "linux"] in
  let w1 := final (mkdir_p p w) in
  wf (fs w) ∧ mkdir_p p w = Ok tt w1 ∧
  fs w1 !! p = Some (Dir true) ∧
  mkdir_p p w1 = Ok tt (printed "CREATE: /repo/Artifacts/linux" w1).
Proof.
  intros w p w1.
  assert (Hrun : mkdir_p p w = Ok tt w1) by by_running.
  split; [exact wf_checkout |]. split; [exact Hrun |].
  vm_cast_no_check (proj2 (mkdir_p_idempotent p w) wf_checkout w1 Hrun).
Defined.

(** C3, the claim as stated fails: the destination [/t] is above the source
    [/t/b], and the source has a subdirectory [b], so the copy of [/t/b/b]
    writes into the source.  The call completes.  [/t/b/1] was ["outer 1"]
    and its counterpart [/t/1] is ["inner 1"]; [/t/b/x] is now ["inner x"]
    and its counterpart [/t/x] is ["outer x"]. *)
Lemma copytree_into_own_parent :
  let w := start nested in
  let w' := final (copytree as_stored 1000 ["t"; "b"] ["t"] w) in
  copytree as_stored 1000 ["t"; "b"] ["t"] w = Ok tt w' ∧
  as_stored ["t"; "b"] (children nested ["t"; "b"]) = ["x"; "b"; "1"] ∧
  fs w !! ["t"; "b"; "1"] = Some (File "outer 1") ∧
  fs w' !! ["t"; "1"] = Some (File "inner 1") ∧
  fs w' !! ["t"; "b"; "x"] = Some (File "inner x") ∧
  fs w' !! ["t"; "x"] = Some (File "outer x").
Proof. intros w w'. split_and!; [by_running | by_evaluation..]. Qed.

Lemma copytree_structure_preserving_witness :
  let w := start checkout in
  let src := ["repo"; "Package"; "Environment"; "Common"] in
  let dst := ["repo"; "Artifacts"; "linux"; "RetroFE"] in
  let w' := final (copytree as_stored 1000 src dst w) in
  wf (fs w) ∧ apart src dst ∧ copytree as_stored 1000 src dst w = Ok tt w' ∧
  fs w' !! (dst ++ ["collections"; "mario"; "settings.conf"])
  = Some (File "list.extensions = nes").
Proof.
  intros w src dst w'.
  assert (Hap : apart src dst) by (split; by_evaluation).
  assert (Hrun : copytree as_stored 1000 src dst w = Ok tt w') by by_running.
  split_and!; [exact wf_checkout | exact Hap | exact Hrun |].
  apply (proj2 (copytree_structure_preserving as_stored as_stored_perm
                  1000 src dst w w' wf_checkout Hap Hrun)).
  by_evaluation.
Defined.

Lemma copytree_parents_first_witness :
  let w := start checkout in
  let w' := final (copytree as_stored 1000
                     ["repo"; "Package"; "Environment"; "Common"]
                     ["repo"; "Artifacts"; "linux"; "RetroFE"] w) in
  wf (fs w) ∧
  ∃ new, hist w' = hist w ++ new ∧ fs w' = default (fs w) (last new) ∧
         ∀ m, m ∈ new → ∀ q a, is_Some (m !! q) →
                        a `prefix_of` q → a ≠ q → is_dir (m !! a).
Proof.
  split; [exact wf_checkout |].
  exact (copytree_parents_first as_stored 1000 _ _ (start checkout) wf_checkout).
Defined.

(** C4, the claim as stated fails: the common assets have a regular file
    [collections/mario/roms].  The run [--os linux] completes with status 0,
    [mario] is a directory of [output/collections] whose name does not start
    with [_], and [roms] below it is that regular file, not a directory. *)
Lemma scaffolding_keeps_regular_file :
  let r := main as_stored 1000 ["repo"] ["--os"; "linux"]
                (start checkout_roms_file) in
  let mario := ["repo"; "Artifacts"; "linux"; "RetroFE"; "collections"; "mario"] in
  r.1 = 0 ∧
  fs r.2 !! mario = Some (Dir true) ∧
  String.prefix "_" "mario" = false ∧
  fs r.2 !! (mario ++ ["roms"]) = Some (File "not a directory") ∧
  fs r.2 !! (mario ++ ["system_artwork"]) = Some (Dir true).
Proof. intros r mario. split_and!; by_evaluation. Qed.

Lemma scaffold_collections_spec_witness :
  let args := Args "linux" "full" false in
  let out := ["repo"; "Artifacts"; "linux"; "RetroFE"] in
  let w := final (copytree as_stored 1000
                    ["repo"; "Package"; "Environment"; "Common"] out
                    (start checkout)) in
  let w' := final (scaffold_collections as_stored ["repo"] args w) in
  scaffold_collections as_stored ["repo"] args w = Ok tt w' ∧
  fs w' !! (out ++ ["collections"; "mario"; "medium_artwork"; "logo"])
  = Some (Dir true) ∧
  fs w' !! (out ++ ["collections"; "_hidden"; "roms"]) = None.
Proof.
  intros args out w w'.
  assert (Hrun : scaffold_collections as_stored ["repo"] args w = Ok tt w')
    by by_running.
  assert (Hmario : is_dir (fs w !! (output_path ["repo"] args
                                    ++ ["collections"; "mario"])))
    by by_evaluation.
  assert (Hhidden : is_dir (fs w !! (output_path ["repo"] args
                                     ++ ["collections"; "_hidden"])))
    by by_evaluation.
  assert (Hlogo : ["medium_artwork"; "logo"] ∈ dirs_to_create) by by_evaluation.
  split; [exact Hrun |]. split.
  - vm_cast_no_check
      (scaffold_collections_spec as_stored as_stored_perm ["repo"]
         args w w' Hrun "mario" Hmario ["medium_artwork"; "logo"] Hlogo).
  - vm_cast_no_check
      (scaffold_collections_spec as_stored as_stored_perm ["repo"]
         args w w' Hrun "_hidden" Hhidden ["roms"]).
Defined.

Lemma mac_missing_executable_witness :
  let args := Args "mac" "core" false in
  let w := start checkout in
  let w1 := final (collect_assets as_stored 1000 ["repo"] args w) in
  let w' :=
    printed "Error: Neither RetroFE.app nor retrofe binary found in Release folder."
            w1 in
  wf (fs w) ∧ collect_assets as_stored 1000 ["repo"] args w = Ok tt w1 ∧
  package as_stored 1000 ["repo"] args w = Ok tt w' ∧
  main as_stored 1000 ["repo"] ["--os"; "mac"; "--build"; "core"] w = (0, w') ∧
  fs w' !! ["repo"; "Artifacts"; "mac"; "RetroFE"] = Some (Dir true).
Proof.
  intros args w w1 w'.
  assert (Hrun : collect_assets as_stored 1000 ["repo"] args w = Ok tt w1)
    by by_running.
  assert (Happ : fs w !! (["repo"] ++ ["RetroFE"; "Build"; "Release"; "RetroFE.app"])
                 = None) by by_evaluation.
  assert (Hexe : fs w !! (["repo"] ++ ["RetroFE"; "Build"; "Release"; "retrofe"])
                 = None) by by_evaluation.
  destruct (mac_missing_executable as_stored 1000 ["repo"] args w w1
              wf_checkout eq_refl eq_refl Happ Hexe Hrun)
    as (_ & Hpkg & _ & Hmain & _ & Hout).
  split_and!; [exact wf_checkout | exact Hrun | exact Hpkg | | exact Hout].
  apply Hmain. by_evaluation.
Defined.

Lemma layout_profile_skips_missing_layouts_witness :
  let args := Args "windows" "layout" false in
  let w := start checkout in
  let wa := final (clean_output ["repo"] args w) in
  let wb := final (ensure_output ["repo"] args wa) in
  wf (fs w) ∧ args_os args ∈ os_choices ∧
  clean_output ["repo"] args w = Ok tt wa ∧
  ensure_output ["repo"] args wa = Ok tt wb ∧
  ∃ w', package as_stored 1000 ["repo"] args w = Ok tt w' ∧
        stdout w' = [] ∧
        fs w' !! ["repo"; "Artifacts"; "windows"; "RetroFE"; "layouts"]
        = Some (Dir true).
Proof.
  intros args w wa wb.
  assert (Hos : args_os args ∈ os_choices) by by_evaluation.
  assert (Hclean : clean_output ["repo"] args w = Ok tt wa) by by_running.
  assert (Hens : ensure_output ["repo"] args wa = Ok tt wb) by by_running.
  split_and!; [exact wf_checkout | exact Hos | exact Hclean | exact Hens |].
  destruct (layout_profile_skips_missing_layouts as_stored 1000 ["repo"]
              args w wa wb wf_checkout Hos eq_refl Hclean Hens)
    as (os_dir & Hdir & _ & Hboth).
  injection Hdir as <-.
  destruct Hboth as (w' & Hpkg & _ & Hout & Htree); [by_evaluation.. |].
  exists w'. split_and!; [exact Hpkg | exact Hout |].
  rewrite Htree; [by_evaluation | by_evaluation].
Defined.

Lemma missing_executable_is_fatal_witness :
  let args := Args "windows" "core" false in
  let w := start checkout in
  wants_executable args = true ∧
  fs w !! (["repo"] ++ ["RetroFE"; "Build"; "Release"; "retrofe.exe"]) = None ∧
  exit_status (package as_stored 1000 ["repo"] args w) = 1.
Proof.
  intros args w.
  assert (Hexe : fs w !! (["repo"] ++ ["RetroFE"; "Build"; "Release"; "retrofe.exe"])
                 = None) by by_evaluation.
  split_and!; [reflexivity | exact Hexe |].
  exact (proj1 (proj2 (missing_executable_is_fatal as_stored 1000 ["repo"]
                         args w eq_refl (or_introl (conj eq_refl Hexe))))).
Defined.

Lemma unknown_build_only_creates_output_witness :
  "linux" ∈ os_choices ∧
  ("bogus" ∉ ["full"; "core"; "engine"; "layout"; "none"]) ∧
  parse_args ["--os"; "linux"; "--build=bogus"] = Some (Args "linux" "bogus" false) ∧
  parse_args ["--os"; "linux"; "--build"; "bogus"]
  = Some (Args "linux" "bogus" false).
Proof.
  assert (Hos : "linux" ∈ os_choices) by by_evaluation.
  assert (Hb : "bogus" ∉ ["full"; "core"; "engine"; "layout"; "none"])
    by by_evaluation.
  destruct (unknown_build_only_creates_output as_stored 1000 ["repo"]
              "linux" "bogus" false Hos Hb) as (Hp1 & Hp2 & _).
  split_and!; [exact Hos | exact Hb | exact Hp1 | exact (Hp2 eq_refl)].
Defined.

(** ** The further properties on the example filesystems *)

Lemma wf_nested : wf nested.
Proof. apply wf_check_spec. by_evaluation. Qed.

Lemma wf_checkout_with_output : wf checkout_with_output.
Proof. apply wf_check_spec. by_evaluation. Qed.

Lemma wf_checkout_no_collections : wf checkout_no_collections.
Proof. apply wf_check_spec. by_evaluation. Qed.

Lemma wf_checkout_release : wf checkout_release.
Proof. apply wf_check_spec. by_evaluation. Qed.

Lemma mkdir_p_creates_ancestors_witness :
  let w := start checkout in
  let p := ["repo"; "Artifacts"; "linux"; "RetroFE"] in
  let w1 := final (mkdir_p p w) in
  wf (fs w) ∧ mkdir_p p w = Ok tt w1 ∧
  fs w !! ["repo"; "Artifacts"] = None ∧
  is_dir (fs w1 !! ["repo"; "Artifacts"; "linux"]) ∧
  adds_dirs (λ q, q `prefix_of` p) w w1.
Proof.
  intros w p w1.
  assert (Hrun : mkdir_p p w = Ok tt w1) by by_running.
  destruct (mkdir_p_creates_ancestors p w w1 wf_checkout Hrun) as [Hanc Hadd].
  split_and!; [exact wf_checkout | exact Hrun | by_evaluation | | exact Hadd].
  apply Hanc; [by exists ["RetroFE"] | by_evaluation].
Defined.

Lemma copytree_below_source_raises_witness :
  wf (fs (start nested)) ∧ ["t"; "b"] `prefix_of` ["t"; "b"; "b"] ∧
  ∃ e w', copytree as_stored 1000 ["t"; "b"] ["t"; "b"; "b"] (start nested)
          = Raise e w'.
Proof.
  assert (Hpre : ["t"; "b"] `prefix_of` ["t"; "b"; "b"]) by by exists ["b"].
  split_and!; [exact wf_nested | exact Hpre |].
  apply (copytree_below_source_raises as_stored as_stored_perm 1000 _ _
           (start nested) wf_nested Hpre).
  by_evaluation.
Defined.


Lemma full_build_needs_collections_witness :
  let args := Args "linux" "full" false in
  let w := start checkout_no_collections in
  wf (fs w) ∧
  fs w !! ["repo"; "Package"; "Environment"; "Common"; "collections"] = None ∧
  fs w !! ["repo"; "Package"; "Environment"; "Linux"; "collections"] = None ∧
  exit_status (package as_stored 1000 ["repo"] args w) = 1.
Proof.
  intros args w.
  assert (Hc : fs w !! (common_path ["repo"] ++ ["collections"]) = None)
    by by_evaluation.
  assert (Hl : fs w !! ["repo"; "Package"; "Environment"; "Linux"; "collections"]
               = None) by by_evaluation.
  split_and!; [exact wf_checkout_no_collections | exact Hc | exact Hl |].
  apply (full_build_needs_collections as_stored 1000 ["repo"] args w
           wf_checkout_no_collections eq_refl Hc).
  intros p [= <-]. exact Hl.
Defined.

Lemma place_linux_delivers_witness :
  let args := Args "linux" "core" false in
  let w := start checkout_with_output in
  let w' := final (place_linux ["repo"] args w) in
  is_dir (fs w !! output_path ["repo"] args) ∧
  place_linux ["repo"] args w = Ok tt w' ∧
  ∃ data,
    fs w !! ["repo"; "RetroFE"; "Build"; "retrofe"] = Some (File data) ∧
    fs w' = <[["repo"; "Artifacts"; "linux"; "RetroFE"; "retrofe"] := File data]>
              (fs w) ∧
    stdout w' = stdout w.
Proof.
  intros args w w'.
  assert (Hout : is_dir (fs w !! output_path ["repo"] args)) by by_evaluation.
  assert (Hrun : place_linux ["repo"] args w = Ok tt w') by by_running.
  split_and!; [exact Hout | exact Hrun |].
  exact (proj1 (place_linux_delivers ["repo"] args w Hout) w' Hrun).
Defined.

Lemma place_windows_delivers_witness :
  let args := Args "windows" "core" false in
  let w := start checkout_release in
  let w' := final (place_windows ["repo"] args w) in
  let core_path := ["repo"; "Artifacts"; "windows"; "RetroFE"; "retrofe"] in
  place_windows ["repo"] args w = Ok tt w' ∧
  fs w !! ["repo"; "Artifacts"; "windows"] = None ∧
  ∃ data,
    fs w !! ["repo"; "RetroFE"; "Build"; "Release"; "retrofe.exe"]
    = Some (File data) ∧
    is_dir (fs w' !! core_path) ∧
    fs w' !! (core_path ++ ["retrofe.exe"]) = Some (File data).
Proof.
  intros args w w' core_path.
  assert (Hrun : place_windows ["repo"] args w = Ok tt w') by by_running.
  split_and!; [exact Hrun | by_evaluation |].
  exact (place_windows_delivers ["repo"] args w w' Hrun).
Defined.

Lemma none_profile_only_removes_witness :
  let args := Args "linux" "none" false in
  let w := start checkout_with_output in
  let w' := final (package as_stored 1000 ["repo"] args w) in
  wf (fs w) ∧
  package as_stored 1000 ["repo"] args (start checkout) = Ok tt (start checkout) ∧
  package as_stored 1000 ["repo"] args w = Ok tt w' ∧
  fs w !! ["repo"; "Artifacts"; "linux"; "RetroFE"; "stale.txt"]
  = Some (File "old") ∧
  fs w' !! ["repo"; "Artifacts"; "linux"; "RetroFE"; "stale.txt"] = None ∧
  fs w' !! ["repo"; "Artifacts"; "linux"; "RetroFE"] = None ∧
  stdout w' = stdout w.
Proof.
  intros args w w'.
  assert (Hrun : package as_stored 1000 ["repo"] args w = Ok tt w') by by_running.
  destruct (none_profile_only_removes as_stored 1000 ["repo"] args w
              wf_checkout_with_output eq_refl) as [_ Hrm].
  destruct (Hrm w' Hrun) as (Hgone & _ & Hout).
  split_and!; [exact wf_checkout_with_output | | exact Hrun | by_evaluation
              | | | exact Hout].
  - apply (proj1 (none_profile_only_removes as_stored 1000 ["repo"] args
                    (start checkout) wf_checkout eq_refl)).
    by_evaluation.
  - apply Hgone. by exists ["stale.txt"].
  - apply Hgone. by exists [].
Defined.

Lemma linux_core_output_witness :
  let args := Args "linux" "core" false in
  let out := ["repo"; "Artifacts"; "linux"; "RetroFE"] in
  let w := start checkout_with_output in
  let w' := final (package as_stored 1000 ["repo"] args w) in
  wf (fs w) ∧ package as_stored 1000 ["repo"] args w = Ok tt w' ∧
  fs w !! (out ++ ["stale.txt"]) = Some (File "old") ∧
  ∃ data,
    fs w !! ["repo"; "RetroFE"; "Build"; "retrofe"] = Some (File data) ∧
    fs w' !! out = Some (Dir true) ∧
    fs w' !! (out ++ ["retrofe"]) = Some (File data) ∧
    fs w' !! (out ++ ["stale.txt"]) = None.
Proof.
  intros args out w w'.
  assert (Hrun : package as_stored 1000 ["repo"] args w = Ok tt w') by by_running.
  destruct (linux_core_output as_stored 1000 ["repo"] args w w'
              wf_checkout_with_output eq_refl (or_introl eq_refl) Hrun)
    as (data & Hsrc & Htree & _).
  split_and!; [exact wf_checkout_with_output | exact Hrun | by_evaluation |].
  exists data. split_and!; [exact Hsrc | | |].
  - exact (Htree out (prefix_app_r out out [] (reflexivity out))).
  - exact (Htree (out ++ ["retrofe"]) (prefix_app_r out out ["retrofe"]
                                          (reflexivity out))).
  - exact (Htree (out ++ ["stale.txt"]) (prefix_app_r out out ["stale.txt"]
                                           (reflexivity out))).
Defined.


Lemma missing_os_is_usage_error_witness :
  let argv := ["--build"; "core"; "--clean"] in
  Forall (λ a, String.prefix "--o" a = false ∧ String.prefix "-h" a = false ∧
               String.prefix "--h" a = false) argv ∧
  parse_args argv = None ∧
  main as_stored 1000 ["repo"] argv (start checkout) = (2, start checkout).
Proof.
  intros argv.
  assert (Hall : Forall (λ a, String.prefix "--o" a = false ∧
                             String.prefix "-h" a = false ∧
                             String.prefix "--h" a = false) argv)
    by (repeat constructor; by_evaluation).
  split; [exact Hall |].
  exact (missing_os_is_usage_error as_stored 1000 ["repo"] argv (start checkout)
           Hall).
Defined.

Lemma place_mac_mirrors_bundle_witness :
  let args := Args "mac" "core" false in
  let w := start checkout_release in
  let w' := final (place_mac ["repo"] args w) in
  let dest_app := ["repo"; "Artifacts"; "mac"; "RetroFE"; "RetroFE.app"] in
  wf (fs w) ∧ place_mac ["repo"] args w = Ok tt w' ∧
  fs w !! (dest_app ++ ["stale.txt"]) = Some (File "old") ∧
  fs w' !! (dest_app ++ ["stale.txt"]) = None ∧
  fs w' !! (dest_app ++ ["Contents"; "Info.plist"]) = Some (File "plist").
Proof.
  intros args w w' dest_app.
  assert (Hrun : place_mac ["repo"] args w = Ok tt w') by by_running.
  assert (Hsrc : is_Some (fs w !! (["repo"] ++ ["RetroFE"; "Build"; "Release";
                                               "RetroFE.app"])))
    by by_evaluation.
  pose proof (place_mac_mirrors_bundle ["repo"] args w w'
                wf_checkout_release Hsrc Hrun) as Hmirror.
  split_and!; [exact wf_checkout_release | exact Hrun | by_evaluation | |].
  - vm_cast_no_check (Hmirror ["stale.txt"]).
  - vm_cast_no_check (Hmirror ["Contents"; "Info.plist"]).
Defined.

Lemma place_mac_falls_back_witness :
  let args := Args "mac" "core" false in
  let w := start checkout_release_bare in
  let w' := final (place_mac ["repo"] args w) in
  fs w !! ["repo"; "RetroFE"; "Build"; "Release"; "RetroFE.app"] = None ∧
  is_dir (fs w !! output_path ["repo"] args) ∧
  place_mac ["repo"] args w = Ok tt w' ∧
  ∃ data,
    fs w !! ["repo"; "RetroFE"; "Build"; "Release"; "retrofe"]
    = Some (File data) ∧
    fs w' = <[["repo"; "Artifacts"; "mac"; "RetroFE"; "retrofe"] := File data]>
              (fs w) ∧
    stdout w' = stdout w.
Proof.
  intros args w w'.
  assert (Happ : fs w !! (["repo"] ++ ["RetroFE"; "Build"; "Release";
                                       "RetroFE.app"]) = None)
    by by_evaluation.
  assert (Hexe : is_Some (fs w !! (["repo"] ++ ["RetroFE"; "Build"; "Release";
                                               "retrofe"])))
    by by_evaluation.
  assert (Hout : is_dir (fs w !! output_path ["repo"] args)) by by_evaluation.
  assert (Hrun : place_mac ["repo"] args w = Ok tt w') by by_running.
  split_and!; [exact Happ | exact Hout | exact Hrun |].
  exact (place_mac_falls_back ["repo"] args w w' Happ Hexe Hout Hrun).
Defined.

Lemma wf_checkout_layouts : wf checkout_layouts.
Proof. apply wf_check_spec. by_evaluation. Qed.

Lemma full_build_delivers_assets_witness :
  let args := Args "linux" "full" false in
  let out := ["repo"; "Artifacts"; "linux"; "RetroFE"] in
  let w := start checkout_with_output in
  let w' := final (package as_stored 1000 ["repo"] args w) in
  wf (fs w) ∧ package as_stored 1000 ["repo"] args w = Ok tt w' ∧
  fs w' !! (out ++ ["settings.conf"]) = Some (File "fullscreen = yes") ∧
  fs w' !! (out ++ ["collections"; "mario"; "settings.conf"])
  = Some (File "list.extensions = nes").
Proof.
  intros args out w w'.
  assert (Hrun : package as_stored 1000 ["repo"] args w = Ok tt w') by by_running.
  pose proof (full_build_delivers_assets as_stored as_stored_perm 1000 ["repo"]
                args w w' _ wf_checkout_with_output eq_refl eq_refl Hrun)
    as Hassets.
  split_and!; [exact wf_checkout_with_output | exact Hrun | |].
  - apply (Hassets "settings.conf" []); [by_evaluation | by_evaluation |].
    left. by_evaluation.
  - apply (Hassets "collections" ["mario"; "settings.conf"]);
      [by_evaluation | by_evaluation |].
    right. split; by_evaluation.
Defined.

Lemma layout_profile_output_witness :
  let args := Args "linux" "layout" false in
  let out := ["repo"; "Artifacts"; "linux"; "RetroFE"] in
  let w := start checkout_layouts in
  let w' := final (package as_stored 1000 ["repo"] args w) in
  wf (fs w) ∧ package as_stored 1000 ["repo"] args w = Ok tt w' ∧
  fs w' !! (out ++ ["layouts"; "layout.xml"]) = Some (File "linux layout") ∧
  fs w' !! (out ++ ["layouts"; "splash.xml"]) = Some (File "common splash") ∧
  fs w !! (out ++ ["stale.txt"]) = Some (File "old") ∧
  fs w' !! (out ++ ["stale.txt"]) = None ∧
  fs w' !! (out ++ ["retrofe"]) = None.
Proof.
  intros args out w w'.
  assert (Hrun : package as_stored 1000 ["repo"] args w = Ok tt w') by by_running.
  destruct (layout_profile_output as_stored as_stored_perm 1000 ["repo"]
              args w w' _ wf_checkout_layouts eq_refl eq_refl Hrun)
    as [Hlayouts Hrest].
  split_and!; [exact wf_checkout_layouts | exact Hrun | | | by_evaluation | |].
  - apply (Hlayouts ["layout.xml"]). left. by_evaluation.
  - apply (Hlayouts ["splash.xml"]). right. split; by_evaluation.
  - apply Hrest; [by exists ["stale.txt"] | by_evaluation | by_evaluation].
  - apply Hrest; [by exists ["retrofe"] | by_evaluation | by_evaluation].
Defined.

Lemma output_regular_file_is_fatal_witness :
  let args := Args "linux" "none" false in
  let w := start checkout_output_file in
  fs w !! ["repo"; "Artifacts"; "linux"; "RetroFE"]
  = Some (File "not a directory") ∧
  package as_stored 1000 ["repo"] args w = Raise (OSError ENOTDIR) w ∧
  exit_status (package as_stored 1000 ["repo"] args w) = 1.
Proof.
  intros args w.
  assert (Hout : fs w !! output_path ["repo"] args
                 = Some (File "not a directory")) by by_evaluation.
  split; [exact Hout |].
  exact (output_regular_file_is_fatal as_stored 1000 ["repo"] args w _ Hout).
Defined.

Lemma copytree_missing_source_witness :
  let w := start checkout in
  fs w !! ["repo"; "Package"; "Environment"; "Windows"] = None ∧
  ∃ e, copytree as_stored 1000 ["repo"; "Package"; "Environment"; "Windows"]
                ["repo"; "out"] w
       = Raise (OSError e) (printed "COPY: /repo/out" w).
Proof.
  intros w.
  assert (Hsrc : fs w !! ["repo"; "Package"; "Environment"; "Windows"] = None)
    by by_evaluation.
  split; [exact Hsrc |].
  exact (copytree_missing_source as_stored 999 _ ["repo"; "out"] w Hsrc).
Defined.
